(** * eslint-config-functype: the rule-set differ and the profile loader

    A shallow embedding of [src/cli/list-rules.ts] (rule extraction and
    [compareRules]) and of the validation prologue of
    [src/configs/recommended.ts], together with the properties that the
    specification states about them. *)

From Stdlib Require Import List String Ascii ZArith Bool Lia.
From Stdlib Require Import Permutation Sorted DecimalString.
Import ListNotations.

Local Open Scope string_scope.

(** ** JavaScript values, completions and the built-ins the code calls *)

Module Js.

(** An abrupt completion carries the thrown value. *)
Inductive Completion (E A : Type) : Type :=
| Normal (a : A)
| Throw (e : E).

Arguments Normal {E A} a.
Arguments Throw {E A} e.

Definition bind {E A B : Type} (c : Completion E A) (k : A -> Completion E B)
  : Completion E B :=
  match c with
  | Normal a => k a
  | Throw e => Throw e
  end.

(** The built-in error [JSON.stringify] raises. *)
Inductive JsError : Type :=
| TypeError (message : string).

(** The values an [unknown] rule option can hold.  Numbers are the
    integer-valued ones (what rule options use); fractional and non-finite
    numbers, symbols, functions, [toJSON] methods and cyclic objects are
    outside this model.  An object is the list of its own enumerable
    properties in property-enumeration order. *)
#[local] Unset Elimination Schemes.
Inductive JsValue : Type :=
| JsUndefined
| JsNull
| JsBoolean (b : bool)
| JsNumber (z : Z)
| JsBigInt (z : Z)
| JsString (s : string)
| JsArray (elems : list JsValue)
| JsObject (props : list (string * JsValue)).
#[local] Set Elimination Schemes.

(** Induction over values that reaches inside arrays and objects. *)
Section JsValue_induction.
Variable P : JsValue -> Prop.
Hypothesis Hundefined : P JsUndefined.
Hypothesis Hnull : P JsNull.
Hypothesis Hboolean : forall b, P (JsBoolean b).
Hypothesis Hnumber : forall z, P (JsNumber z).
Hypothesis Hbigint : forall z, P (JsBigInt z).
Hypothesis Hstring : forall s, P (JsString s).
Hypothesis Harray : forall elems, Forall P elems -> P (JsArray elems).
Hypothesis Hobject :
  forall props, Forall (fun kv => P (snd kv)) props -> P (JsObject props).

Fixpoint JsValue_deep_ind (v : JsValue) : P v :=
  match v with
  | JsUndefined => Hundefined
  | JsNull => Hnull
  | JsBoolean b => Hboolean b
  | JsNumber z => Hnumber z
  | JsBigInt z => Hbigint z
  | JsString s => Hstring s
  | JsArray elems =>
      Harray elems
        ((fix all (l : list JsValue) : Forall P l :=
            match l with
            | [] => Forall_nil P
            | e :: l' => Forall_cons e (JsValue_deep_ind e) (all l')
            end) elems)
  | JsObject props =>
      Hobject props
        ((fix all (l : list (string * JsValue))
            : Forall (fun kv => P (snd kv)) l :=
            match l with
            | [] => Forall_nil _
            | kv :: l' =>
                Forall_cons kv (JsValue_deep_ind (snd kv)) (all l')
            end) props)
  end.
End JsValue_induction.

(** *** JSON.stringify *)

Definition quotationMark : ascii := ascii_of_nat 34.
Definition reverseSolidus : ascii := ascii_of_nat 92.

Definition hexDigit (n : nat) : ascii :=
  nth n ["0"; "1"; "2"; "3"; "4"; "5"; "6"; "7";
         "8"; "9"; "a"; "b"; "c"; "d"; "e"; "f"]%char "0"%char.

(** One code unit of QuoteJSONString: the two-character escapes, [\u00xx]
    for the other control characters, and the unit itself otherwise. *)
Definition quoteCodeUnit (c : ascii) : string :=
  let n := nat_of_ascii c in
  let esc (x : ascii) := String reverseSolidus (String x EmptyString) in
  if (n =? 8)%nat then esc "b"%char
  else if (n =? 9)%nat then esc "t"%char
  else if (n =? 10)%nat then esc "n"%char
  else if (n =? 12)%nat then esc "f"%char
  else if (n =? 13)%nat then esc "r"%char
  else if (n =? 34)%nat then esc quotationMark
  else if (n =? 92)%nat then esc reverseSolidus
  else if (n <? 32)%nat then
    String reverseSolidus
      (String "u" (String "0" (String "0"
         (String (hexDigit (n / 16)) (String (hexDigit (n mod 16)) EmptyString)))))
  else String c EmptyString.

Fixpoint quoteCodeUnits (s : string) : string :=
  match s with
  | EmptyString => EmptyString
  | String c s' => quoteCodeUnit c ++ quoteCodeUnits s'
  end.

Definition QuoteJSONString (s : string) : string :=
  String quotationMark (quoteCodeUnits s ++ String quotationMark EmptyString).

(** Number::toString on an integer-valued number, in decimal digits (the
    form JavaScript prints below 10^21). *)
Definition Number_toString (z : Z) : string :=
  NilZero.string_of_int (Z.to_int z).

(** SerializeJSONProperty with no replacer and an empty gap: [None] is the
    [undefined] result, which an array prints as [null] and an object
    leaves out.  A BigInt makes the whole serialization throw. *)
Fixpoint SerializeJSONProperty (v : JsValue) : Completion JsError (option string) :=
  match v with
  | JsUndefined => Normal None
  | JsNull => Normal (Some "null")
  | JsBoolean b => Normal (Some (if b then "true" else "false"))
  | JsNumber z => Normal (Some (Number_toString z))
  | JsBigInt _ => Throw (TypeError "Do not know how to serialize a BigInt")
  | JsString s => Normal (Some (QuoteJSONString s))
  | JsArray elems =>
      bind
        ((fix SerializeJSONArray (l : list JsValue)
            : Completion JsError (list string) :=
            match l with
            | [] => Normal []
            | e :: l' =>
                bind (SerializeJSONProperty e) (fun strP =>
                bind (SerializeJSONArray l') (fun partial =>
                Normal (match strP with
                        | None => "null"
                        | Some str => str
                        end :: partial)))
            end) elems)
        (fun partial => Normal (Some ("[" ++ concat "," partial ++ "]")))
  | JsObject props =>
      bind
        ((fix SerializeJSONObject (l : list (string * JsValue))
            : Completion JsError (list string) :=
            match l with
            | [] => Normal []
            | kv :: l' =>
                bind (SerializeJSONProperty (snd kv)) (fun strP =>
                bind (SerializeJSONObject l') (fun partial =>
                Normal (match strP with
                        | None => partial
                        | Some str =>
                            (QuoteJSONString (fst kv) ++ ":" ++ str) :: partial
                        end)))
            end) props)
        (fun partial => Normal (Some ("{" ++ concat "," partial ++ "}")))
  end.

Definition JSON_stringify (v : JsValue) : Completion JsError (option string) :=
  SerializeJSONProperty v.

(** *** Map, Set and Array *)

(** A [Map] keyed by strings: its entries in insertion order. *)
Definition Map (V : Type) : Type := list (string * V).

Fixpoint Map_get {V : Type} (m : Map V) (key : string) : option V :=
  match m with
  | [] => None
  | (k, v) :: m' => if (k =? key)%string then Some v else Map_get m' key
  end.

(** [set] overwrites the value of a key in place and appends a new key. *)
Fixpoint Map_set {V : Type} (m : Map V) (key : string) (value : V) : Map V :=
  match m with
  | [] => [(key, value)]
  | (k, v) :: m' =>
      if (k =? key)%string then (k, value) :: m'
      else (k, v) :: Map_set m' key value
  end.

Definition Map_keys {V : Type} (m : Map V) : list string := map fst m.

(** A [Set] of strings: its elements in insertion order. *)
Definition Set_has (s : list string) (x : string) : bool :=
  existsb (String.eqb x) s.

Definition Set_add (s : list string) (x : string) : list string :=
  if Set_has s x then s else s ++ [x].

(** [new Set(iterable)] adds the elements one after the other. *)
Definition Set_from (l : list string) : list string := fold_left Set_add l [].

(** A loop over a list whose body updates a state and may throw. *)
Fixpoint forEach {E S A : Type}
  (l : list A) (callbackfn : S -> A -> Completion E S) (s : S)
  : Completion E S :=
  match l with
  | [] => Normal s
  | x :: l' => bind (callbackfn s x) (forEach l' callbackfn)
  end.

Definition Array_push {A : Type} (arr : list A) (x : A) : list A := arr ++ [x].

(** [Array.prototype.sort] is stable: an element goes in front of the first
    later element it does not compare greater than.  With a consistent
    comparator every stable sort gives this result; with another comparator
    the order of the result is left to the implementation. *)
Fixpoint Array_sort_insert {A : Type}
  (comparefn : A -> A -> Z) (x : A) (sorted : list A) : list A :=
  match sorted with
  | [] => [x]
  | y :: sorted' =>
      if (comparefn x y <=? 0)%Z then x :: sorted
      else y :: Array_sort_insert comparefn x sorted'
  end.

Fixpoint Array_sort {A : Type} (comparefn : A -> A -> Z) (arr : list A) : list A :=
  match arr with
  | [] => []
  | x :: arr' => Array_sort_insert comparefn x (Array_sort comparefn arr')
  end.

(** *** String comparison *)

Definition Z_of_comparison (c : comparison) : Z :=
  match c with
  | Lt => (-1)%Z
  | Eq => 0%Z
  | Gt => 1%Z
  end.

(** The ordinal comparison of two strings, code unit by code unit: what
    [<] and [>] on strings compute. *)
Definition ordinalCompare (a b : string) : Z :=
  Z_of_comparison (String.compare a b).

Definition toLowerCase_codeUnit (c : ascii) : ascii :=
  let n := nat_of_ascii c in
  if ((65 <=? n) && (n <=? 90))%nat then ascii_of_nat (n + 32) else c.

Fixpoint toLowerCase (s : string) : string :=
  match s with
  | EmptyString => EmptyString
  | String c s' => String (toLowerCase_codeUnit c) (toLowerCase s')
  end.

(** A host collation of the kind [localeCompare] uses by default (the root
    collation of ICU, on ASCII letters): letters are ordered alphabetically
    whatever their case, and two strings that differ in case only put the
    lower-case letter first. *)
Definition localeCompare_root (a b : string) : Z :=
  match String.compare (toLowerCase a) (toLowerCase b) with
  | Eq => Z_of_comparison (String.compare b a)
  | c => Z_of_comparison c
  end.

(** What [Array.prototype.sort] asks of its comparator for the order of the
    result to be defined. *)
Definition consistentComparator {A : Type} (comparefn : A -> A -> Z) : Prop :=
  (forall a b, (0 < comparefn a b)%Z -> (comparefn b a <= 0)%Z) /\
  (forall a b c,
      (comparefn a b <= 0)%Z -> (comparefn b c <= 0)%Z -> (comparefn a c <= 0)%Z).

(** Values [JSON.stringify] can serialize: no BigInt anywhere inside. *)
Fixpoint containsBigInt (v : JsValue) : bool :=
  match v with
  | JsBigInt _ => true
  | JsArray elems => existsb containsBigInt elems
  | JsObject props => existsb (fun kv => containsBigInt (snd kv)) props
  | _ => false
  end.

(** *** More built-ins *)

Definition Map_has {V : Type} (m : Map V) (key : string) : bool :=
  existsb (String.eqb key) (Map_keys m).

Definition Map_values {V : Type} (m : Map V) : list V := map snd m.

Definition Map_size {V : Type} (m : Map V) : nat := List.length m.

Definition toUpperCase_codeUnit (c : ascii) : ascii :=
  let n := nat_of_ascii c in
  if ((97 <=? n) && (n <=? 122))%nat then ascii_of_nat (n - 32) else c.

(** [String.prototype.toUpperCase] on ASCII text. *)
Fixpoint toUpperCase (s : string) : string :=
  match s with
  | EmptyString => EmptyString
  | String c s' => String (toUpperCase_codeUnit c) (toUpperCase s')
  end.

Fixpoint String_repeat (s : string) (count : nat) : string :=
  match count with
  | O => EmptyString
  | S count' => s ++ String_repeat s count'
  end.

(** A number of elements inside a template literal. *)
Definition String_of_length (n : nat) : string := Number_toString (Z.of_nat n).

Definition Array_includes (arr : list string) (x : string) : bool :=
  existsb (String.eqb x) arr.

(** [findIndex]: the index of the first element that passes, or -1. *)
Fixpoint Array_findIndex {A : Type} (predicate : A -> bool) (arr : list A) : Z :=
  match arr with
  | [] => (-1)%Z
  | x :: arr' =>
      if predicate x then 0%Z
      else
        let i := Array_findIndex predicate arr' in
        if (i <? 0)%Z then (-1)%Z else (i + 1)%Z
  end.

(** [arr[i]]: [undefined] outside the bounds. *)
Definition Array_at {A : Type} (arr : list A) (i : Z) : option A :=
  if (i <? 0)%Z then None else nth_error arr (Z.to_nat i).

Definition LF : string := String (ascii_of_nat 10) EmptyString.

Definition ESC : ascii := ascii_of_nat 27.

End Js.

Import Js.

(** ** src/cli/list-rules.ts *)

Module ListRules.

(** [type RuleSeverity = 'off' | 'warn' | 'error' | 0 | 1 | 2] *)
Inductive RuleSeverity : Type :=
| S_off | S_warn | S_error
| N_0 | N_1 | N_2.

(** [===] on severities: a string is never strictly equal to a number. *)
Definition RuleSeverity_strictEq (a b : RuleSeverity) : bool :=
  match a, b with
  | S_off, S_off | S_warn, S_warn | S_error, S_error
  | N_0, N_0 | N_1, N_1 | N_2, N_2 => true
  | _, _ => false
  end.

(** [type RuleConfig = RuleSeverity | [RuleSeverity, ...unknown[]]] *)
Inductive RuleConfig : Type :=
| BareSeverity (severity : RuleSeverity)
| SeverityArray (severity : RuleSeverity) (rest : list JsValue).

Record RuleData : Type := mkRuleData {
  severity : RuleSeverity;
  options : list JsValue;
  source : string
}.

(** [rules] holds the entries of the object as [Object.entries] lists them. *)
Record Config : Type := mkConfig {
  rules : option (list (string * RuleConfig));
  extends : option (list string);
  plugins : option (list string)
}.

Inductive DiffStatus : Type := added | removed | different | same.

Record RuleDiff : Type := mkRuleDiff {
  name : string;
  status : DiffStatus;
  localSeverity : option RuleSeverity;
  functypeSeverity : option RuleSeverity;
  localOptions : option (list JsValue);
  functypeOptions : option (list JsValue)
}.

Definition getRuleSource (ruleName : string) : string :=
  if prefix "functional/" ruleName then "eslint-plugin-functional"
  else if prefix "@typescript-eslint/" ruleName
       then "@typescript-eslint/eslint-plugin"
  else "eslint (core)".

(** The body of the loop of [extractRules]: the two tests of
    [Array.isArray] are the two matches. *)
Definition extractRule (rules : Map RuleData) (entry : string * RuleConfig)
  : Map RuleData :=
  let (ruleName, ruleConfig) := entry in
  let severity :=
    match ruleConfig with
    | SeverityArray s _ => s
    | BareSeverity s => s
    end in
  let options :=
    match ruleConfig with
    | SeverityArray _ rest => rest
    | BareSeverity _ => []
    end in
  Map_set rules ruleName
    {| severity := severity; options := options;
       source := getRuleSource ruleName |}.

Definition extractRules (config : Config) : Map RuleData :=
  match rules config with
  | Some entries => fold_left extractRule entries []
  | None => []
  end.

Definition String_of_severity (severity : RuleSeverity) : string :=
  match severity with
  | S_off => "off" | S_warn => "warn" | S_error => "error"
  | N_0 => "0" | N_1 => "1" | N_2 => "2"
  end.

Definition severityMap : Map string :=
  [("0", "off"); ("1", "warn"); ("2", "error");
   ("off", "off"); ("warn", "warn"); ("error", "error")].

Definition formatSeverity (severity : RuleSeverity) : string :=
  match Map_get severityMap (String_of_severity severity) with
  | Some (String c s) => String c s
  | _ => String_of_severity severity
  end.

Section Differ.

(** [String.prototype.localeCompare] of the host: negative, zero or
    positive.  The code passes no locale, so the host's default collation
    decides. *)
Variable localeCompare : string -> string -> Z.

(** [JSON.stringify(a) !== JSON.stringify(b)] on two results. *)
Definition strictNotEq (a b : option string) : bool :=
  match a, b with
  | Some x, Some y => negb (x =? y)%string
  | None, None => false
  | _, _ => true
  end.

(** The body of the loop of [compareRules]: [diffs] is the array the loop
    pushes to. *)
Definition compareRule (localRules functypeRules : Map RuleData)
  (diffs : list RuleDiff) (ruleName : string)
  : Completion JsError (list RuleDiff) :=
  let localRule := Map_get localRules ruleName in
  let functypeRule := Map_get functypeRules ruleName in
  match localRule, functypeRule with
  | None, Some functypeRule =>
      Normal (Array_push diffs
        {| name := ruleName; status := added;
           localSeverity := None;
           functypeSeverity := Some (severity functypeRule);
           localOptions := None;
           functypeOptions := Some (options functypeRule) |})
  | Some localRule, None =>
      Normal (Array_push diffs
        {| name := ruleName; status := removed;
           localSeverity := Some (severity localRule);
           functypeSeverity := None;
           localOptions := Some (options localRule);
           functypeOptions := None |})
  | Some localRule, Some functypeRule =>
      let severityDifferent :=
        negb (RuleSeverity_strictEq (severity localRule) (severity functypeRule)) in
      bind (JSON_stringify (JsArray (options localRule))) (fun localJson =>
      bind (JSON_stringify (JsArray (options functypeRule))) (fun functypeJson =>
      let optionsDifferent := strictNotEq localJson functypeJson in
      if severityDifferent || optionsDifferent then
        Normal (Array_push diffs
          {| name := ruleName; status := different;
             localSeverity := Some (severity localRule);
             functypeSeverity := Some (severity functypeRule);
             localOptions := Some (options localRule);
             functypeOptions := Some (options functypeRule) |})
      else
        Normal (Array_push diffs
          {| name := ruleName; status := same;
             localSeverity := Some (severity localRule);
             functypeSeverity := Some (severity functypeRule);
             localOptions := None;
             functypeOptions := None |})))
  | None, None => Normal diffs
  end.

Definition compareRules (localRules functypeRules : Map RuleData)
  : Completion JsError (list RuleDiff) :=
  let allRules := Set_from (Map_keys localRules ++ Map_keys functypeRules) in
  bind (forEach allRules (compareRule localRules functypeRules) [])
    (fun diffs =>
       Normal (Array_sort (fun a b => localeCompare (name a) (name b)) diffs)).

End Differ.

(** *** Console output *)

(** The keys of [colors]. *)
Inductive Color : Type :=
| reset | bright | red | green | yellow | blue | magenta | cyan.

Definition colors (color : Color) : string :=
  String ESC
    match color with
    | reset => "[0m"
    | bright => "[1m"
    | red => "[31m"
    | green => "[32m"
    | yellow => "[33m"
    | blue => "[34m"
    | magenta => "[35m"
    | cyan => "[36m"
    end.

Definition colorize (text : string) (color : Color) : string :=
  colors color ++ text ++ colors reset.

(** The [default] case cannot be reached by a [RuleSeverity]. *)
Definition getSeverityColor (severity : RuleSeverity) : Color :=
  match severity with
  | S_error | N_2 => red
  | S_warn | N_1 => yellow
  | S_off | N_0 => cyan
  end.

(** [formatSeverity(x!)] and [getSeverityColor(x!)] on a field that may be
    [undefined] when the program runs: [String(undefined)] is not a key of
    [severityMap], and [undefined] takes the [default] case. *)
Definition formatSeverity_unchecked (x : option RuleSeverity) : string :=
  match x with
  | Some severity => formatSeverity severity
  | None => "undefined"
  end.

Definition getSeverityColor_unchecked (x : option RuleSeverity) : Color :=
  match x with
  | Some severity => getSeverityColor severity
  | None => reset
  end.

(** [console.log] appends a line to what the console has shown. *)
Definition console_log (console : list string) (message : string) : list string :=
  console ++ [message].

(** *** printRules *)

(** The first loop of [printRules]: one round files a rule under its source,
    creating the group of the source when it is new. *)
Definition groupRule (rulesBySource : Map (Map RuleData))
  (entry : string * RuleData) : Map (Map RuleData) :=
  let (ruleName, ruleData) := entry in
  let source := source ruleData in
  let rulesBySource :=
    if negb (Map_has rulesBySource source) then Map_set rulesBySource source []
    else rulesBySource in
  match Map_get rulesBySource source with
  | Some sourceRules =>
      Map_set rulesBySource source (Map_set sourceRules ruleName ruleData)
  | None => rulesBySource
  end.

Definition groupBySource (rules : Map RuleData) : Map (Map RuleData) :=
  fold_left groupRule rules [].

(** Where a line terminator starts: LF, CR, U+2028 or U+2029 (the last two
    in UTF-8).  The [.] of a regular expression matches none of them. *)
Definition startsWithLineTerminator (s : string) : bool :=
  match s with
  | String c s' =>
      let n := nat_of_ascii c in
      if ((n =? 10) || (n =? 13))%nat then true
      else
        match s' with
        | String c1 (String c2 _) =>
            ((n =? 226) && (nat_of_ascii c1 =? 128)
             && ((nat_of_ascii c2 =? 168) || (nat_of_ascii c2 =? 169)))%nat
        | _ => false
        end
  | EmptyString => false
  end.

(** What follows the match of [/^.*\//]: the text after the last slash of
    the first line, when that line has a slash. *)
Fixpoint afterLastSlash (s : string) : option string :=
  match s with
  | EmptyString => None
  | String c s' =>
      if startsWithLineTerminator s then None
      else
        match afterLastSlash s' with
        | Some rest => Some rest
        | None => if (nat_of_ascii c =? 47)%nat then Some s' else None
        end
  end.

(** [ruleName.replace(/^.*\//, '')] *)
Definition shortName (ruleName : string) : string :=
  match afterLastSlash ruleName with
  | Some rest => rest
  | None => ruleName
  end.

(** A loop whose body writes to the console and may throw; what was written
    before a throw stays written. *)
Fixpoint forEachLogging {A : Type} (l : list A)
  (callbackfn : A -> list string -> Completion JsError unit * list string)
  (console : list string) : Completion JsError unit * list string :=
  match l with
  | [] => (Normal tt, console)
  | x :: l' =>
      match callbackfn x console with
      | (Normal _, console') => forEachLogging l' callbackfn console'
      | (Throw e, console') => (Throw e, console')
      end
  end.

(** The body of the innermost loop of [printRules]; [argv] is
    [process.argv]. *)
Definition printRule (argv : list string) (entry : string * RuleData)
  (console : list string) : Completion JsError unit * list string :=
  let (ruleName, ruleData) := entry in
  let shortName := shortName ruleName in
  let color := getSeverityColor (severity ruleData) in
  let severity := formatSeverity (severity ruleData) in
  let severityColored := colorize ("[" ++ toUpperCase severity ++ "]") color in
  let hasOptions := (0 <? List.length (options ruleData))%nat in
  let optionsText := if hasOptions then colorize " (with options)" cyan else "" in
  let console :=
    console_log console
      ("  " ++ severityColored ++ " " ++ colorize shortName green ++ optionsText) in
  if hasOptions && Array_includes argv "--verbose" then
    match JSON_stringify (JsArray (options ruleData)) with
    | Normal json =>
        (Normal tt,
         console_log console
           ("    " ++ colorize "Options:" cyan ++ " "
            ++ match json with Some text => text | None => "undefined" end))
    | Throw e => (Throw e, console)
    end
  else (Normal tt, console).

Definition printRules (argv : list string) (configName : string)
  (rules : Map RuleData) (console : list string)
  : Completion JsError unit * list string :=
  let console :=
    console_log console
      (colorize (LF ++ "üìã " ++ configName ++ " Configuration Rules:") bright) in
  let console := console_log console (colorize (String_repeat "=" 50) blue) in
  let rulesBySource := groupBySource rules in
  forEachLogging rulesBySource
    (fun group console =>
       let (source, sourceRules) := group in
       let console :=
         console_log console (colorize (LF ++ "üì¶ " ++ source ++ ":") magenta) in
       forEachLogging sourceRules (printRule argv) console)
    console.

(** *** printSummary *)

Record LoadedConfig : Type := mkLoadedConfig {
  loaded_name : string;
  loaded_rules : Map RuleData
}.

Definition errorRules (rules : Map RuleData) : nat :=
  List.length
    (filter (fun r => RuleSeverity_strictEq (severity r) S_error
                      || RuleSeverity_strictEq (severity r) N_2)
       (Map_values rules)).

Definition warnRules (rules : Map RuleData) : nat :=
  List.length
    (filter (fun r => RuleSeverity_strictEq (severity r) S_warn
                      || RuleSeverity_strictEq (severity r) N_1)
       (Map_values rules)).

Definition offRules (rules : Map RuleData) : nat :=
  List.length
    (filter (fun r => RuleSeverity_strictEq (severity r) S_off
                      || RuleSeverity_strictEq (severity r) N_0)
       (Map_values rules)).

(** The body of the loop of [printSummary]. *)
Definition printConfigSummary (console : list string) (config : LoadedConfig)
  : list string :=
  let name := loaded_name config in
  let rules := loaded_rules config in
  let totalRules := Map_size rules in
  let console :=
    console_log console
      (LF ++ colorize name bright ++ ": " ++ String_of_length totalRules
       ++ " total rules") in
  let console :=
    console_log console
      ("  " ++ colorize "‚óè" red ++ " "
       ++ String_of_length (errorRules rules) ++ " errors") in
  let console :=
    console_log console
      ("  " ++ colorize "‚óè" yellow ++ " "
       ++ String_of_length (warnRules rules) ++ " warnings") in
  console_log console
    ("  " ++ colorize "‚óè" cyan ++ " "
     ++ String_of_length (offRules rules) ++ " disabled").

Definition printSummary (configs : list LoadedConfig) (console : list string)
  : list string :=
  let console := console_log console (colorize (LF ++ "üìä Summary:") bright) in
  let console := console_log console (colorize (String_repeat "=" 30) blue) in
  fold_left printConfigSummary configs console.

(** *** printDiff *)

Definition DiffStatus_strictEq (a b : DiffStatus) : bool :=
  match a, b with
  | added, added | removed, removed | different, different | same, same => true
  | _, _ => false
  end.

(** The [categories] of [printDiff], one function per key. *)
Definition categories_removed (diffs : list RuleDiff) : list RuleDiff :=
  filter (fun d => DiffStatus_strictEq (status d) removed) diffs.

Definition categories_added (diffs : list RuleDiff) : list RuleDiff :=
  filter (fun d => DiffStatus_strictEq (status d) added) diffs.

Definition categories_different (diffs : list RuleDiff) : list RuleDiff :=
  filter (fun d => DiffStatus_strictEq (status d) different) diffs.

Definition categories_same (diffs : list RuleDiff) : list RuleDiff :=
  filter (fun d => DiffStatus_strictEq (status d) same) diffs.

Definition printSame (console : list string) (diff : RuleDiff) : list string :=
  let severity := formatSeverity_unchecked (functypeSeverity diff) in
  console_log console ("  ‚Ä¢ " ++ name diff ++ " (" ++ severity ++ ")").

Definition printAdded (console : list string) (diff : RuleDiff) : list string :=
  let severity := formatSeverity_unchecked (functypeSeverity diff) in
  let severityColored :=
    colorize ("[" ++ toUpperCase severity ++ "]")
      (getSeverityColor_unchecked (functypeSeverity diff)) in
  console_log console ("  ‚Ä¢ " ++ name diff ++ " " ++ severityColored).

Definition printDifferent (console : list string) (diff : RuleDiff) : list string :=
  let localSeverity := formatSeverity_unchecked (localSeverity diff) in
  let functypeSeverity := formatSeverity_unchecked (functypeSeverity diff) in
  let console := console_log console ("  ‚Ä¢ " ++ name diff) in
  let console := console_log console ("    Local:    " ++ localSeverity) in
  console_log console ("    Functype: " ++ functypeSeverity).

Definition printRemoved (console : list string) (diff : RuleDiff) : list string :=
  let severity := formatSeverity_unchecked (localSeverity diff) in
  console_log console ("  ‚Ä¢ " ++ name diff ++ " (" ++ severity ++ ")").

Definition nonEmpty {A : Type} (arr : list A) : bool :=
  (0 <? List.length arr)%nat.

Definition printDiff (diffs : list RuleDiff) (functypeConfigName : string)
  (console : list string) : list string :=
  let console :=
    console_log console
      (colorize (LF ++ "üîÑ Config Comparison vs " ++ functypeConfigName ++ ":")
         bright) in
  let console := console_log console (colorize (String_repeat "=" 60) blue) in
  let removed := categories_removed diffs in
  let added := categories_added diffs in
  let different := categories_different diffs in
  let same := categories_same diffs in
  let console :=
    if nonEmpty same then
      fold_left printSame same
        (console_log console
           (colorize (LF ++ "‚úÖ Rules you can remove (covered by functype):")
              green))
    else console in
  let console :=
    if nonEmpty added then
      fold_left printAdded added
        (console_log console
           (colorize (LF ++ "‚ûï New rules functype adds:") blue))
    else console in
  let console :=
    if nonEmpty different then
      fold_left printDifferent different
        (console_log console
           (colorize (LF ++ "üîÄ Conflicting rules (will override functype):")
              yellow))
    else console in
  let console :=
    if nonEmpty removed then
      fold_left printRemoved removed
        (console_log console
           (colorize (LF ++ "‚ûñ Your additional rules (not in functype):")
              magenta))
    else console in
  let console :=
    console_log console (colorize (LF ++ "üìä Migration Summary:") bright) in
  let console :=
    console_log console
      ("  " ++ String_of_length (List.length same) ++ " rules can be removed") in
  let console :=
    console_log console
      ("  " ++ String_of_length (List.length added) ++ " new rules will be added") in
  let console :=
    console_log console
      ("  " ++ String_of_length (List.length different) ++ " rules have conflicts") in
  let console :=
    console_log console
      ("  " ++ String_of_length (List.length removed)
       ++ " additional rules you keep") in
  if nonEmpty same || nonEmpty different then
    let console :=
      console_log console
        (colorize (LF ++ "üí° Suggested migration steps:") bright) in
    let console :=
      if nonEmpty same then
        console_log console
          "1. Remove duplicate rules from your config (they match functype)"
      else console in
    let console :=
      if nonEmpty different then
        console_log console
          "2. Review conflicting rules - decide if you want local overrides"
      else console in
    console_log console
      ("3. Add functype config: extends: ["
       ++ String quotationMark "plugin:functype/recommended"
       ++ String quotationMark "]")
  else console.

(** *** loadLocalESLintConfig *)

Definition possibleConfigs : list string :=
  [ "eslint.config.js"; "eslint.config.mjs"; "eslint.config.ts";
    ".eslintrc.js"; ".eslintrc.json" ].

(** The choice of [actualPath]: the path given, or else the first candidate
    that [fs.existsSync] finds; [None] is the [return null] of the search. *)
Definition actualPath (existsSync : string -> bool) (configPath : string)
  : option string :=
  match configPath with
  | String _ _ => Some configPath
  | EmptyString => find existsSync possibleConfigs
  end.

(** [Object.assign(target, source)] on two rule tables. *)
Definition Object_assign (target source : Map RuleConfig) : Map RuleConfig :=
  fold_left (fun target entry => Map_set target (fst entry) (snd entry))
    source target.

(** The merge of a flat configuration array.  An element is [None] when it
    is not an object with a [rules] property, and a [Config] otherwise. *)
Definition mergeRules (mergedRules : Map RuleConfig) (cfg : option Config)
  : Map RuleConfig :=
  match cfg with
  | Some configObj =>
      match rules configObj with
      | Some configRules => Object_assign mergedRules configRules
      | None => mergedRules
      end
  | None => mergedRules
  end.

Definition mergeFlatConfig (config : list (option Config)) : Config :=
  {| rules := Some (fold_left mergeRules config []);
     extends := None; plugins := None |}.

(** *** main *)

Definition showHelp (args : list string) : bool :=
  Array_includes args "--help" || Array_includes args "-h".

Definition showUsage (args : list string) : bool :=
  Array_includes args "--usage" || Array_includes args "-u".

Definition checkDeps (args : list string) : bool :=
  Array_includes args "--check-deps" || Array_includes args "--check".

Definition diffMode (args : list string) : bool :=
  Array_includes args "--diff".

Definition diffConfigIndex (args : list string) : Z :=
  Array_findIndex (fun arg => (arg =? "--diff")%string) args.

Definition diffConfigPath (args : list string) : string :=
  if negb (diffConfigIndex args =? -1)%Z then
    match Array_at args (diffConfigIndex args + 1) with
    | Some (String c s) => String c s
    | _ => ""
    end
  else "".

(** The branch of [main] that runs, with what it is given. *)
Inductive Action : Type :=
| PrintHelp
| RunDiffMode (configPath : string)
| CheckDependencies
| ListSupportedRules (showUsage : bool).

Definition main_action (args : list string) : Action :=
  if showHelp args then PrintHelp
  else if diffMode args then RunDiffMode (diffConfigPath args)
  else if checkDeps args then CheckDependencies
  else ListSupportedRules (showUsage args).

End ListRules.

(** ** src/configs/recommended.ts *)

Module Recommended.

Import ListRules.

Record FlatConfig : Type := mkFlatConfig {
  config_name : string;
  config_rules : list (string * RuleConfig)
}.

(** The object the module exports. *)
Definition recommended : FlatConfig :=
  {| config_name := "functype/recommended";
     config_rules :=
       [ ("prefer-const", BareSeverity S_error);
         ("no-var", BareSeverity S_error);
         ("no-throw-literal", BareSeverity S_error);
         ("no-mixed-spaces-and-tabs", BareSeverity S_error);
         ("no-extra-semi", BareSeverity S_error);
         ("object-shorthand", BareSeverity S_error);
         ("prefer-template", BareSeverity S_error);
         ("prefer-destructuring",
           SeverityArray S_error
             [JsObject [("array", JsBoolean false); ("object", JsBoolean true)]]);
         ("@typescript-eslint/consistent-type-imports", BareSeverity S_error);
         ("@typescript-eslint/no-explicit-any", BareSeverity S_error);
         ("@typescript-eslint/no-unused-vars",
           SeverityArray S_error
             [JsObject
                [("argsIgnorePattern", JsString "^_");
                 ("varsIgnorePattern", JsString "^(_|[A-Z]$)");
                 ("caughtErrors", JsString "all");
                 ("caughtErrorsIgnorePattern", JsString "^_");
                 ("destructuredArrayIgnorePattern", JsString "^_");
                 ("ignoreRestSiblings", JsBoolean true);
                 ("args", JsString "after-used")]]);
         ("@typescript-eslint/no-unused-expressions",
           SeverityArray S_error
             [JsObject
                [("allowShortCircuit", JsBoolean true);
                 ("allowTernary", JsBoolean true)]]);
         ("@typescript-eslint/no-floating-promises", BareSeverity S_error);
         ("@typescript-eslint/await-thenable", BareSeverity S_error);
         ("@typescript-eslint/no-misused-promises", BareSeverity S_error);
         ("@typescript-eslint/require-await", BareSeverity S_error);
         ("@typescript-eslint/prefer-nullish-coalescing", BareSeverity S_error);
         ("@typescript-eslint/prefer-optional-chain", BareSeverity S_error);
         ("@typescript-eslint/no-unnecessary-condition", BareSeverity S_warn);
         ("@typescript-eslint/strict-boolean-expressions",
           SeverityArray S_warn
             [JsObject
                [("allowString", JsBoolean true);
                 ("allowNumber", JsBoolean true);
                 ("allowNullableObject", JsBoolean true);
                 ("allowNullableBoolean", JsBoolean true);
                 ("allowNullableString", JsBoolean true);
                 ("allowNullableNumber", JsBoolean true);
                 ("allowAny", JsBoolean true)]]);
         ("functional/no-let", BareSeverity S_error);
         ("functional/immutable-data", BareSeverity S_warn);
         ("functional/no-loop-statements", BareSeverity S_off);
         ("functional/prefer-immutable-types",
           SeverityArray S_warn
             [JsObject
                [("enforcement", JsString "ReadonlyShallow");
                 ("ignoreInferredTypes", JsBoolean true)]]);
         ("functional/no-mixed-types", BareSeverity S_off);
         ("functional/functional-parameters", BareSeverity S_off);
         ("functional/no-throw-statements", BareSeverity S_warn);
         ("functional/no-try-statements",
           SeverityArray S_warn [JsObject [("allowCatch", JsBoolean true)]]);
         ("functional/no-conditional-statements", BareSeverity S_off);
         ("functional/no-expression-statements", BareSeverity S_off);
         ("functional/no-return-void", BareSeverity S_off);
         ("prettier/prettier",
           SeverityArray S_error
             [JsObject []; JsObject [("usePrettierrc", JsBoolean true)]]);
         ("simple-import-sort/imports", BareSeverity S_error);
         ("simple-import-sort/exports", BareSeverity S_error) ] |}.

(** The exported object as [loadConfig] hands it to [extractRules]. *)
Definition asConfig (c : FlatConfig) : Config :=
  {| rules := Some (config_rules c); extends := None; plugins := None |}.

(** Modelled from the spec: the result type of the validator, which
    [../utils/dependency-validator] declares (that module is not among the
    sources); the fields are those of the data model. *)
Record DependencyDescriptor : Type := mkDependencyDescriptor {
  dependency_name : string;
  required : bool;
  description : string
}.

Record ValidationResult : Type := mkValidationResult {
  isValid : bool;
  available : list DependencyDescriptor;
  missing : list DependencyDescriptor;
  warnings : list string;
  installCommand : option string
}.

Definition lineFeed : string := String (ascii_of_nat 10) EmptyString.

(** [console.warn] appends a line to what the console has shown. *)
Definition console_warn (console : list string) (message : string) : list string :=
  console ++ [message].

Section ConfigLoad.

(** The three functions imported from [../utils/dependency-validator] read
    the host environment; they are parameters of the loader. *)
Variable Environment : Type.
Variable Error : Type.
Variable shouldValidateDependencies : Environment -> bool.
Variable validatePeerDependencies : Environment -> ValidationResult.
Variable createValidationError : ValidationResult -> Error.

(** The statements that run before the export, as a function of the
    environment and of the console; the console is returned also when the
    module throws. *)
Definition validateOnLoad (env : Environment) (console : list string)
  : Completion Error unit * list string :=
  if shouldValidateDependencies env then
    let result := validatePeerDependencies env in
    if negb (isValid result) then
      (Throw (createValidationError result), console)
    else if (0 <? List.length (warnings result))%nat then
      let console := console_warn console
        (lineFeed ++ "⚠️  eslint-config-functype warnings:") in
      let console := fold_left
        (fun console warning => console_warn console ("   " ++ warning))
        (warnings result) console in
      let console := console_warn console "" in
      (Normal tt, console)
    else (Normal tt, console)
  else (Normal tt, console).

(** Evaluating the module: the export is reached only when the
    validation statements complete normally. *)
Definition loadModule (env : Environment) (console : list string)
  : Completion Error FlatConfig * list string :=
  match validateOnLoad env console with
  | (Normal _, console') => (Normal recommended, console')
  | (Throw e, console') => (Throw e, console')
  end.

End ConfigLoad.

End Recommended.

(** ** Vocabulary of the specification *)

Import ListRules.

(** A rule mapping is well formed when every option of every rule can be
    serialized. *)
Definition wellFormedRules (m : Map RuleData) : bool :=
  forallb (fun entry => negb (existsb containsBigInt (options (snd entry)))) m.

(** The severity a declaration stands for in the data model of the
    specification: disabled (0, off), warning (1, warn) or error
    (2, error). *)
Inductive Severity : Type := disabled | warning | error.

Definition canonicalSeverity (s : RuleSeverity) : Severity :=
  match s with
  | S_off | N_0 => disabled
  | S_warn | N_1 => warning
  | S_error | N_2 => error
  end.

(** The key set of either mapping. *)
Definition inUnion (localRules functypeRules : Map RuleData) (n : string) : Prop :=
  In n (Map_keys localRules) \/ In n (Map_keys functypeRules).

(** A diff entry read from the other side: [added] and [removed] trade
    places, and so do the local and the reference fields. *)
Definition swapStatus (st : DiffStatus) : DiffStatus :=
  match st with
  | added => removed
  | removed => added
  | different => different
  | same => same
  end.

Definition mirror (d : RuleDiff) : RuleDiff :=
  {| name := name d;
     status := swapStatus (status d);
     localSeverity := functypeSeverity d;
     functypeSeverity := localSeverity d;
     localOptions := functypeOptions d;
     functypeOptions := localOptions d |}.

(** Two rule mappings that agree on names, severities and options, whatever
    their [source] labels. *)
Definition agreeUpToSource (m m' : Map RuleData) : Prop :=
  Forall2
    (fun e e' =>
       fst e = fst e' /\
       severity (snd e) = severity (snd e') /\
       options (snd e) = options (snd e'))
    m m'.

(** Names in ascending ordinal order. *)
Definition ordinalSorted (names : list string) : Prop :=
  StronglySorted (fun a b => (ordinalCompare a b <= 0)%Z) names.

(** Diff entries in ascending order of their names for a comparator. *)
Definition sortedByName (localeCompare : string -> string -> Z)
  (diffs : list RuleDiff) : Prop :=
  StronglySorted
    (fun a b => (localeCompare (name a) (name b) <= 0)%Z) diffs.

(** A configuration that declares the given rules and nothing else. *)
Definition configOf (entries : list (string * RuleConfig)) : Config :=
  {| rules := Some entries; extends := None; plugins := None |}.

(** ** Sample configurations *)

Definition local_noVar : Config := configOf [("no-var", BareSeverity S_error)].

Definition reference_noVar_numeric : Config :=
  configOf [("no-var", BareSeverity N_2)].

Definition reference_noVar_preferConst : Config :=
  configOf [("no-var", BareSeverity N_2); ("prefer-const", BareSeverity S_error)].

Definition local_foo : Config :=
  configOf [("foo", SeverityArray S_error [JsObject [("a", JsNumber 1)]])].

Definition reference_foo : Config :=
  configOf [("foo", SeverityArray S_error [JsObject [("a", JsNumber 2)]])].

Definition local_project : Config :=
  configOf
    [ ("eqeqeq", BareSeverity S_error);
      ("no-var", SeverityArray S_error []);
      ("prefer-const", BareSeverity S_warn);
      ("prefer-destructuring",
        SeverityArray S_error
          [JsObject [("array", JsBoolean true); ("object", JsBoolean true)]]);
      ("functional/no-let", BareSeverity S_error);
      ("Custom/rule", BareSeverity S_warn) ].

Definition local_a : Config := configOf [("a", BareSeverity S_error)].
Definition reference_B : Config := configOf [("B", BareSeverity S_error)].

(** The same rules as [local_project] under other provenance labels. *)
Definition relabel (label : string) (m : Map RuleData) : Map RuleData :=
  map (fun e =>
         (fst e,
          {| severity := severity (snd e); options := options (snd e);
             source := label |})) m.

(** A host in which validation is switched on and a required package is
    absent, and one in which only an optional package is absent. *)
Definition sample_missingRequired : Recommended.ValidationResult :=
  {| Recommended.isValid := false;
     Recommended.available := [];
     Recommended.missing :=
       [ {| Recommended.dependency_name := "eslint-plugin-functional";
            Recommended.required := true;
            Recommended.description := "Functional programming rules" |} ];
     Recommended.warnings := [];
     Recommended.installCommand := Some "pnpm add -D eslint-plugin-functional" |}.

Definition sample_missingOptional : Recommended.ValidationResult :=
  {| Recommended.isValid := true;
     Recommended.available := [];
     Recommended.missing :=
       [ {| Recommended.dependency_name := "eslint-plugin-prettier";
            Recommended.required := false;
            Recommended.description := "Code formatting" |} ];
     Recommended.warnings := ["eslint-plugin-prettier is not installed"];
     Recommended.installCommand := None |}.

Definition sample_validate (requiredPresent : bool) : Recommended.ValidationResult :=
  if requiredPresent then sample_missingOptional else sample_missingRequired.

(** The message of the error built from a failed result, as far as these
    samples need it. *)
Definition sample_createValidationError (r : Recommended.ValidationResult) : string :=
  concat ", " (map Recommended.dependency_name
                 (filter Recommended.required (Recommended.missing r))).

(** ** Vocabulary of the further properties *)

(** A configuration whose rule options can all be serialized. *)
Definition serializableConfig (config : Config) : bool :=
  match rules config with
  | Some entries =>
      forallb
        (fun entry =>
           match snd entry with
           | SeverityArray _ rest => negb (existsb containsBigInt rest)
           | BareSeverity _ => true
           end) entries
  | None => true
  end.

(** The rules a configuration declares, in the order it declares them. *)
Definition declaredRules (config : Config) : list (string * RuleConfig) :=
  match rules config with
  | Some entries => entries
  | None => []
  end.


(** The error [JSON.stringify] gives for a BigInt. *)
Definition bigIntError : JsError :=
  TypeError "Do not know how to serialize a BigInt".

(** The last line of the migration steps [printDiff] suggests. *)
Definition lastMigrationStep : string :=
  "3. Add functype config: extends: ["
  ++ String quotationMark "plugin:functype/recommended"
  ++ String quotationMark "]".

(** How the line of a rule starts in the report of [printDiff], and the
    number of such lines on a console. *)
Definition bulletPrefix : string := "  ‚Ä¢ ".

Definition bulletLines (console : list string) : nat :=
  List.length (filter (prefix bulletPrefix) console).

(** The rules of a mapping that come from a given source. *)
Definition fromSource (s : string) (entry : string * RuleData) : bool :=
  (source (snd entry) =? s)%string.

(** The sources of a mapping, each once, in the order of their first rule. *)
Definition sourcesOf (rules : Map RuleData) : list string :=
  Set_from (map (fun entry => source (snd entry)) rules).

(** A name none of whose code units starts a line terminator, and a name
    without a slash. *)
Fixpoint noLineTerminator (s : string) : bool :=
  match s with
  | EmptyString => true
  | String c s' => negb (startsWithLineTerminator s) && noLineTerminator s'
  end.

Fixpoint noSlash (s : string) : bool :=
  match s with
  | EmptyString => true
  | String c s' => negb (nat_of_ascii c =? 47)%nat && noSlash s'
  end.




(** More sample configurations. *)
Definition local_redeclared : Config :=
  configOf
    [ ("no-var", BareSeverity S_warn);
      ("eqeqeq", BareSeverity S_error);
      ("no-var", SeverityArray S_error [JsObject [("x", JsNumber 1)]]) ].

Definition local_bigint : Config :=
  configOf
    [ ("no-magic-numbers", SeverityArray S_error [JsObject [("max", JsBigInt 10)]]);
      ("eqeqeq", BareSeverity S_error) ].

Definition reference_bigint : Config :=
  configOf
    [ ("no-magic-numbers", SeverityArray S_error [JsObject [("max", JsNumber 10)]]) ].

Definition sample_flatConfig : list (option Config) :=
  [ Some (configOf [("no-var", BareSeverity S_warn); ("eqeqeq", BareSeverity S_error)]);
    None;
    Some {| rules := None; extends := None; plugins := Some ["functional"] |};
    Some (configOf [("prefer-const", BareSeverity S_error);
                    ("no-var", SeverityArray S_error [])]) ].

(** * Properties *)

(** ** Facts about the built-ins *)

Section MapFacts.
Context {V : Type}.

Lemma Map_get_None_iff (m : Map V) (key : string) :
  Map_get m key = None <-> ~ In key (Map_keys m).
Proof.
  induction m as [|[k v] m IH]; simpl.
  - tauto.
  - destruct (String.eqb_spec k key) as [->|Hne].
    + split; [discriminate | intros H; exfalso; apply H; now left].
    + rewrite IH. tauto.
Qed.

Lemma Map_get_Some_In (m : Map V) (key : string) (v : V) :
  Map_get m key = Some v -> In key (Map_keys m).
Proof.
  intros H. destruct (in_dec string_dec key (Map_keys m)) as [Hin|Hnin]; auto.
  apply Map_get_None_iff in Hnin. congruence.
Qed.

Lemma Map_get_In_value (m : Map V) (key : string) (v : V) :
  Map_get m key = Some v -> In (key, v) m.
Proof.
  induction m as [|[k w] m IH]; simpl; [discriminate|].
  destruct (String.eqb_spec k key) as [->|Hne].
  - intros [= ->]. now left.
  - intros H. right. now apply IH.
Qed.

Lemma In_keys_get (m : Map V) (key : string) :
  In key (Map_keys m) -> exists v, Map_get m key = Some v.
Proof.
  intros Hin. destruct (Map_get m key) as [v|] eqn:E; [now exists v|].
  apply Map_get_None_iff in E. contradiction.
Qed.
End MapFacts.

Lemma Set_has_true_iff (s : list string) (x : string) :
  Set_has s x = true <-> In x s.
Proof.
  unfold Set_has. rewrite existsb_exists. split.
  - intros [y [Hy Heq]]. apply String.eqb_eq in Heq. now subst.
  - intros H. exists x. split; [assumption | apply String.eqb_refl].
Qed.

Lemma Set_add_In (s : list string) (x y : string) :
  In y (Set_add s x) <-> In y s \/ y = x.
Proof.
  unfold Set_add. destruct (Set_has s x) eqn:E.
  - apply Set_has_true_iff in E. split; [tauto | intros [H| ->]; assumption].
  - rewrite in_app_iff. simpl. intuition congruence.
Qed.

Lemma Set_add_NoDup (s : list string) (x : string) :
  NoDup s -> NoDup (Set_add s x).
Proof.
  intros Hs. unfold Set_add. destruct (Set_has s x) eqn:E; [assumption|].
  assert (Hnin : ~ In x s).
  { intros Hin. apply Set_has_true_iff in Hin. congruence. }
  clear E. induction Hs as [|a s Ha Hs IH]; simpl.
  - constructor; [tauto | constructor].
  - constructor.
    + rewrite in_app_iff. simpl in *. intuition congruence.
    + apply IH. simpl in Hnin. tauto.
Qed.

Lemma fold_Set_add_In (l acc : list string) (y : string) :
  In y (fold_left Set_add l acc) <-> In y acc \/ In y l.
Proof.
  revert acc. induction l as [|x l IH]; intros acc; simpl.
  - tauto.
  - rewrite IH, Set_add_In. intuition congruence.
Qed.

Lemma fold_Set_add_NoDup (l acc : list string) :
  NoDup acc -> NoDup (fold_left Set_add l acc).
Proof.
  revert acc. induction l as [|x l IH]; intros acc Hacc; simpl.
  - assumption.
  - apply IH. now apply Set_add_NoDup.
Qed.

Lemma Set_from_In (l : list string) (y : string) :
  In y (Set_from l) <-> In y l.
Proof. unfold Set_from. rewrite fold_Set_add_In. simpl. tauto. Qed.

Lemma Set_from_NoDup (l : list string) : NoDup (Set_from l).
Proof. apply fold_Set_add_NoDup. constructor. Qed.

Section SortFacts.
Context {A : Type}.
Variable comparefn : A -> A -> Z.

Lemma Array_sort_insert_Permutation (x : A) (l : list A) :
  Permutation (Array_sort_insert comparefn x l) (x :: l).
Proof.
  induction l as [|y l IH]; simpl.
  - reflexivity.
  - destruct (comparefn x y <=? 0)%Z.
    + reflexivity.
    + rewrite IH. apply perm_swap.
Qed.

Lemma Array_sort_Permutation (l : list A) :
  Permutation (Array_sort comparefn l) l.
Proof.
  induction l as [|x l IH]; simpl.
  - reflexivity.
  - rewrite Array_sort_insert_Permutation. now constructor.
Qed.

Hypothesis Hconsistent : consistentComparator comparefn.

Let notAfter (a b : A) : Prop := (comparefn a b <= 0)%Z.

Lemma Array_sort_insert_sorted (x : A) (l : list A) :
  StronglySorted notAfter l ->
  StronglySorted notAfter (Array_sort_insert comparefn x l).
Proof.
  destruct Hconsistent as [Htotal Htrans].
  induction 1 as [|y l Hl IH Hy]; simpl.
  - constructor; constructor.
  - destruct (comparefn x y <=? 0)%Z eqn:E.
    + apply Z.leb_le in E. constructor.
      * now constructor.
      * constructor; [exact E|].
        rewrite Forall_forall in *. intros z Hz.
        apply (Htrans x y z E). now apply Hy.
    + apply Z.leb_gt in E. constructor; [exact IH|].
      rewrite Forall_forall in *. intros z Hz.
      apply (Permutation_in _ (Array_sort_insert_Permutation x l)) in Hz.
      destruct Hz as [<-|Hz].
      * now apply Htotal.
      * now apply Hy.
Qed.

Lemma Array_sort_sorted (l : list A) :
  StronglySorted notAfter (Array_sort comparefn l).
Proof.
  induction l as [|x l IH]; simpl.
  - constructor.
  - now apply Array_sort_insert_sorted.
Qed.
End SortFacts.

(** ** Serialization *)

Lemma SerializeJSONProperty_returns (v : JsValue) :
  containsBigInt v = false -> exists r, SerializeJSONProperty v = Normal r.
Proof.
  induction v as [ | | b | z | z | s | elems IH | props IH ]
    using JsValue_deep_ind; simpl; intros Hv; try (eexists; reflexivity).
  - discriminate.
  - match goal with |- context [bind (?f elems) _] => set (go := f) end.
    assert (Hgo : exists partial, go elems = Normal partial).
    { induction IH as [|e l He Hl IHl]; simpl in *.
      - eexists; reflexivity.
      - apply orb_false_iff in Hv as [Hv1 Hv2].
        destruct (He Hv1) as [r ->]. destruct (IHl Hv2) as [partial ->].
        simpl. eexists; reflexivity. }
    destruct Hgo as [partial ->]. simpl. eexists; reflexivity.
  - match goal with |- context [bind (?f props) _] => set (go := f) end.
    assert (Hgo : exists partial, go props = Normal partial).
    { induction IH as [|kv l He Hl IHl]; simpl in *.
      - eexists; reflexivity.
      - apply orb_false_iff in Hv as [Hv1 Hv2].
        destruct (He Hv1) as [r ->]. destruct (IHl Hv2) as [partial ->].
        simpl. eexists; reflexivity. }
    destruct Hgo as [partial ->]. simpl. eexists; reflexivity.
Qed.

Lemma SerializeJSONProperty_throws (v : JsValue) (e : JsError) :
  SerializeJSONProperty v = Throw e -> containsBigInt v = true.
Proof.
  intros H. destruct (containsBigInt v) eqn:E; [reflexivity|].
  destruct (SerializeJSONProperty_returns v E) as [r Hr]. congruence.
Qed.

(** An array never serializes to [undefined]. *)
Lemma JSON_stringify_array (elems : list JsValue) (r : option string) :
  JSON_stringify (JsArray elems) = Normal r -> exists s, r = Some s.
Proof.
  unfold JSON_stringify. simpl.
  match goal with |- context [bind ?c _] => destruct c as [partial|e] end;
    simpl; intros H; [|discriminate].
  injection H as <-. eexists; reflexivity.
Qed.

Lemma JSON_stringify_options (opts : list JsValue) :
  existsb containsBigInt opts = false ->
  exists s, JSON_stringify (JsArray opts) = Normal (Some s).
Proof.
  intros H.
  destruct (SerializeJSONProperty_returns (JsArray opts) H) as [r Hr].
  destruct (JSON_stringify_array opts r Hr) as [s ->]. now exists s.
Qed.

Lemma JSON_stringify_options_throws (opts : list JsValue) (e : JsError) :
  JSON_stringify (JsArray opts) = Throw e ->
  existsb containsBigInt opts = true.
Proof. intros H. exact (SerializeJSONProperty_throws (JsArray opts) e H). Qed.

(** The comparison of serializations is sensitive to the order of the
    options and of the properties of an object, and it does not tell
    [undefined] from [null] inside an array. *)
Example JSON_stringify_order_sensitive :
  JSON_stringify (JsArray [JsNumber 1; JsNumber 2])
  <> JSON_stringify (JsArray [JsNumber 2; JsNumber 1]) /\
  JSON_stringify (JsArray [JsObject [("a", JsNumber 1); ("b", JsNumber 2)]])
  <> JSON_stringify (JsArray [JsObject [("b", JsNumber 2); ("a", JsNumber 1)]]).
Proof. split; discriminate. Qed.

Example JSON_stringify_undefined_as_null :
  JSON_stringify (JsArray [JsUndefined]) = JSON_stringify (JsArray [JsNull]).
Proof. reflexivity. Qed.

Lemma wellFormedRules_get (m : Map RuleData) (n : string) (r : RuleData) :
  wellFormedRules m = true -> Map_get m n = Some r ->
  existsb containsBigInt (options r) = false.
Proof.
  unfold wellFormedRules. rewrite forallb_forall. intros Hm Hget.
  apply Map_get_In_value in Hget. apply Hm in Hget. simpl in Hget.
  now apply negb_true_iff in Hget.
Qed.

Lemma strictNotEq_sym (a b : option string) :
  strictNotEq a b = strictNotEq b a.
Proof.
  destruct a, b; simpl; try reflexivity. now rewrite String.eqb_sym.
Qed.

Lemma strictNotEq_false_iff (a b : option string) :
  strictNotEq a b = false <-> a = b.
Proof.
  destruct a as [x|], b as [y|]; simpl; try (split; congruence).
  rewrite negb_false_iff, String.eqb_eq. split; congruence.
Qed.

Lemma RuleSeverity_strictEq_iff (a b : RuleSeverity) :
  RuleSeverity_strictEq a b = true <-> a = b.
Proof. destruct a, b; simpl; split; congruence. Qed.

Lemma RuleSeverity_strictEq_sym (a b : RuleSeverity) :
  RuleSeverity_strictEq a b = RuleSeverity_strictEq b a.
Proof. now destruct a, b. Qed.

(** ** The loop of [compareRules] *)

Section LoopFacts.
Variables localRules functypeRules : Map RuleData.

Let body := compareRule localRules functypeRules.

(** What one round of the loop pushes, by the four cases of presence. *)
Lemma compareRule_cases (n : string) (ds : list RuleDiff) :
  body [] n = Normal ds ->
  match Map_get localRules n, Map_get functypeRules n with
  | None, None => ds = []
  | None, Some f =>
      ds = [mkRuleDiff n added None (Some (severity f)) None (Some (options f))]
  | Some l, None =>
      ds = [mkRuleDiff n removed (Some (severity l)) None (Some (options l)) None]
  | Some l, Some f =>
      exists lj fj,
        JSON_stringify (JsArray (options l)) = Normal lj /\
        JSON_stringify (JsArray (options f)) = Normal fj /\
        ds = [if negb (RuleSeverity_strictEq (severity l) (severity f))
                 || strictNotEq lj fj
              then mkRuleDiff n different (Some (severity l)) (Some (severity f))
                     (Some (options l)) (Some (options f))
              else mkRuleDiff n same (Some (severity l)) (Some (severity f))
                     None None]
  end.
Proof.
  unfold body, compareRule.
  destruct (Map_get localRules n) as [l|], (Map_get functypeRules n) as [f|];
    cbn [bind Array_push app]; try congruence.
  destruct (JSON_stringify (JsArray (options l))) as [lj|];
    cbn [bind]; [|discriminate].
  destruct (JSON_stringify (JsArray (options f))) as [fj|];
    cbn [bind]; [|discriminate].
  intros H. exists lj, fj. repeat split.
  destruct (negb _ || _); cbn [Array_push app] in H; congruence.
Qed.

(** The array the loop pushes to only grows at its end. *)
Lemma compareRule_acc (acc : list RuleDiff) (n : string) :
  body acc n = bind (body [] n) (fun ds => Normal (acc ++ ds)%list).
Proof.
  unfold body, compareRule, Array_push.
  destruct (Map_get localRules n) as [l|], (Map_get functypeRules n) as [f|];
    cbn [bind app]; try reflexivity.
  - destruct (JSON_stringify (JsArray (options l))) as [lj|];
      cbn [bind]; [|reflexivity].
    destruct (JSON_stringify (JsArray (options f))) as [fj|];
      cbn [bind]; [|reflexivity].
    destruct (negb _ || _); reflexivity.
  - now rewrite app_nil_r.
Qed.

Lemma compareRule_named (n : string) (ds : list RuleDiff) :
  body [] n = Normal ds -> Forall (fun d => name d = n) ds.
Proof.
  intros H. apply compareRule_cases in H.
  destruct (Map_get localRules n) as [l|], (Map_get functypeRules n) as [f|].
  - destruct H as (lj & fj & _ & _ & ->). constructor; [|constructor].
    now destruct (negb _ || _).
  - subst. now repeat constructor.
  - subst. now repeat constructor.
  - subst. constructor.
Qed.

Lemma compareRule_in_union (n : string) (ds : list RuleDiff) :
  inUnion localRules functypeRules n ->
  body [] n = Normal ds -> exists d, ds = [d] /\ name d = n.
Proof.
  intros Hin H. pose proof (compareRule_named n ds H) as Hnamed.
  apply compareRule_cases in H.
  destruct (Map_get localRules n) as [l|] eqn:El,
           (Map_get functypeRules n) as [f|] eqn:Ef.
  - destruct H as (lj & fj & _ & _ & ->). eexists. split; [reflexivity|].
    now inversion Hnamed.
  - subst. eexists; split; reflexivity.
  - subst. eexists; split; reflexivity.
  - apply Map_get_None_iff in El, Ef. destruct Hin; contradiction.
Qed.

(** The loop leaves one entry per name of the union, in the order of the
    names, each being what a round on that name alone pushes. *)
Lemma forEach_compareRule (names : list string) :
  (forall n, In n names -> inUnion localRules functypeRules n) ->
  forall acc out,
    forEach names body acc = Normal out ->
    exists ds,
      out = (acc ++ ds)%list /\
      map name ds = names /\
      Forall (fun d => body [] (name d) = Normal [d]) ds.
Proof.
  induction names as [|n names IH]; intros Hin acc out; simpl.
  - intros [= <-]. exists []. rewrite app_nil_r. repeat split. constructor.
  - rewrite compareRule_acc.
    destruct (body [] n) as [ds0|e] eqn:E0; simpl; [|discriminate].
    intros Hrest.
    destruct (compareRule_in_union n ds0 (Hin n (or_introl eq_refl)) E0)
      as (d & -> & Hd).
    destruct (IH (fun m Hm => Hin m (or_intror Hm)) _ _ Hrest)
      as (ds & -> & Hnames & Hall).
    exists (d :: ds). rewrite <- app_assoc. simpl. repeat split.
    + now rewrite Hd, Hnames.
    + constructor; [now rewrite Hd | assumption].
Qed.

Hypothesis HwfLocal : wellFormedRules localRules = true.
Hypothesis HwfFunctype : wellFormedRules functypeRules = true.

Lemma compareRule_returns (acc : list RuleDiff) (n : string) :
  exists out, body acc n = Normal out.
Proof.
  unfold body, compareRule.
  destruct (Map_get localRules n) as [l|] eqn:El,
           (Map_get functypeRules n) as [f|] eqn:Ef;
    try (eexists; reflexivity).
  destruct (JSON_stringify_options (options l)
              (wellFormedRules_get _ _ _ HwfLocal El)) as [lj ->].
  destruct (JSON_stringify_options (options f)
              (wellFormedRules_get _ _ _ HwfFunctype Ef)) as [fj ->].
  cbn [bind]. destruct (negb _ || _); eexists; reflexivity.
Qed.

Lemma forEach_compareRule_returns (names : list string) (acc : list RuleDiff) :
  exists out, forEach names body acc = Normal out.
Proof.
  revert acc. induction names as [|n names IH]; intros acc; simpl.
  - eexists; reflexivity.
  - destruct (compareRule_returns acc n) as [out ->]. simpl. apply IH.
Qed.
End LoopFacts.

(** ** The result of [compareRules] *)

Section ResultFacts.
Variable localeCompare : string -> string -> Z.
Variables localRules functypeRules : Map RuleData.

Let allRules := Set_from (Map_keys localRules ++ Map_keys functypeRules).
Let byName := fun a b : RuleDiff => localeCompare (name a) (name b).

Lemma allRules_inUnion (n : string) :
  In n allRules <-> inUnion localRules functypeRules n.
Proof.
  unfold allRules, inUnion. now rewrite Set_from_In, in_app_iff.
Qed.

Lemma compareRules_inv (diffs : list RuleDiff) :
  compareRules localeCompare localRules functypeRules = Normal diffs ->
  exists raw,
    forEach allRules (compareRule localRules functypeRules) [] = Normal raw /\
    diffs = Array_sort byName raw.
Proof.
  unfold compareRules. fold allRules.
  destruct (forEach allRules _ []) as [raw|e]; cbn [bind]; [|discriminate].
  intros [= <-]. now exists raw.
Qed.

Lemma compareRules_returns :
  wellFormedRules localRules = true ->
  wellFormedRules functypeRules = true ->
  exists diffs,
    compareRules localeCompare localRules functypeRules = Normal diffs.
Proof.
  intros Hl Hf. unfold compareRules.
  destruct (forEach_compareRule_returns localRules functypeRules Hl Hf
              (Set_from (Map_keys localRules ++ Map_keys functypeRules)) [])
    as [raw ->].
  cbn [bind]. eexists; reflexivity.
Qed.

Section OfAResult.
Variable diffs : list RuleDiff.
Hypothesis Hrun :
  compareRules localeCompare localRules functypeRules = Normal diffs.

Lemma compareRules_names : Permutation (map name diffs) allRules.
Proof.
  destruct (compareRules_inv diffs Hrun) as (raw & Hloop & ->).
  apply forEach_compareRule in Hloop
    as (ds & Hds & Hnames & _); [|intros n; apply allRules_inUnion].
  simpl in Hds. subst ds. rewrite <- Hnames.
  apply Permutation_map, Array_sort_Permutation.
Qed.

Lemma compareRules_entries :
  Forall (fun d =>
            compareRule localRules functypeRules [] (name d) = Normal [d])
         diffs.
Proof.
  destruct (compareRules_inv diffs Hrun) as (raw & Hloop & ->).
  apply forEach_compareRule in Hloop
    as (ds & Hds & _ & Hall); [|intros n; apply allRules_inUnion].
  simpl in Hds. subst ds.
  rewrite Forall_forall in *. intros d Hd. apply Hall.
  now apply (Permutation_in _ (Array_sort_Permutation byName raw)).
Qed.

Lemma compareRules_NoDup_names : NoDup (map name diffs).
Proof.
  apply (Permutation_NoDup (Permutation_sym compareRules_names)).
  apply Set_from_NoDup.
Qed.

Lemma compareRules_In_names (n : string) :
  In n (map name diffs) <-> inUnion localRules functypeRules n.
Proof.
  rewrite <- allRules_inUnion. split; apply Permutation_in.
  - exact compareRules_names.
  - exact (Permutation_sym compareRules_names).
Qed.

Lemma compareRules_entry (n : string) :
  inUnion localRules functypeRules n ->
  exists d,
    In d diffs /\ name d = n /\
    compareRule localRules functypeRules [] n = Normal [d].
Proof.
  intros Hn. apply compareRules_In_names, in_map_iff in Hn
    as (d & Hd & Hin).
  exists d. repeat split; try assumption.
  pose proof compareRules_entries as Hall. rewrite Forall_forall in Hall.
  rewrite <- Hd. now apply Hall.
Qed.

Lemma compareRules_entry_inv (d : RuleDiff) :
  In d diffs ->
  inUnion localRules functypeRules (name d) /\
  compareRule localRules functypeRules [] (name d) = Normal [d].
Proof.
  intros Hd. split.
  - apply compareRules_In_names. now apply in_map.
  - pose proof compareRules_entries as Hall.
    rewrite Forall_forall in Hall. now apply Hall.
Qed.

Lemma compareRules_entry_unique (d d' : RuleDiff) :
  In d diffs -> In d' diffs -> name d = name d' -> d = d'.
Proof.
  intros Hd Hd' Hname.
  apply compareRules_entry_inv in Hd as [_ Hd].
  apply compareRules_entry_inv in Hd' as [_ Hd'].
  rewrite Hname in Hd. congruence.
Qed.
End OfAResult.
End ResultFacts.

(** Case analysis on a round of the loop that pushed exactly [d]. *)
Ltac round_cases H :=
  let lj := fresh "lj" in
  let fj := fresh "fj" in
  let Hlj := fresh "Hlj" in
  let Hfj := fresh "Hfj" in
  let Hd := fresh "Hd" in
  let El := fresh "El" in
  let Ef := fresh "Ef" in
  let Ec := fresh "Ec" in
  apply compareRule_cases in H;
  match type of H with
  | match Map_get ?L ?n with _ => _ end =>
      destruct (Map_get L n) eqn:El;
      match type of H with
      | match Map_get ?F n with _ => _ end =>
          destruct (Map_get F n) eqn:Ef
      end
  end;
  [ destruct H as (lj & fj & Hlj & Hfj & Hd);
    match type of Hd with
    | context [if ?b then _ else _] => destruct b eqn:Ec
    end;
    injection Hd as Hd
  | injection H as H
  | injection H as H
  | discriminate H ].

(** ** The claims about the differ *)

(** C2.  For well-formed mappings the differ returns a diff in which every
    rule name of the union of the two key sets occurs exactly once and has
    exactly one status, and in which no other name occurs. *)
Theorem compareRules_covers_union_once :
  forall (localeCompare : string -> string -> Z)
         (localRules functypeRules : Map RuleData),
    wellFormedRules localRules = true ->
    wellFormedRules functypeRules = true ->
    exists diffs,
      compareRules localeCompare localRules functypeRules = Normal diffs /\
      (forall n, inUnion localRules functypeRules n ->
         count_occ string_dec (map name diffs) n = 1 /\
         exists! st, exists d, In d diffs /\ name d = n /\ status d = st) /\
      (forall n, ~ inUnion localRules functypeRules n ->
         count_occ string_dec (map name diffs) n = 0).
Proof.
  intros cmp L F HL HF.
  destruct (compareRules_returns cmp L F HL HF) as [diffs Hrun].
  exists diffs. split; [exact Hrun|]. split.
  - intros n Hn. split.
    + apply NoDup_count_occ'.
      * exact (compareRules_NoDup_names cmp L F diffs Hrun).
      * now apply (compareRules_In_names cmp L F diffs Hrun).
    + destruct (compareRules_entry cmp L F diffs Hrun n Hn) as (d & Hd & Hname & _).
      exists (status d). split.
      * now exists d.
      * intros st (d' & Hd' & Hname' & <-).
        f_equal. apply (compareRules_entry_unique cmp L F diffs Hrun); congruence.
  - intros n Hn. apply count_occ_not_In.
    now rewrite (compareRules_In_names cmp L F diffs Hrun).
Qed.

Lemma compareRules_covers_union_once_witness :
  exists diffs,
    compareRules localeCompare_root (extractRules local_project)
      (extractRules (Recommended.asConfig Recommended.recommended))
    = Normal diffs /\
    (forall n,
        inUnion (extractRules local_project)
          (extractRules (Recommended.asConfig Recommended.recommended)) n ->
        count_occ string_dec (map name diffs) n = 1 /\
        exists! st, exists d, In d diffs /\ name d = n /\ status d = st) /\
    (forall n,
        ~ inUnion (extractRules local_project)
            (extractRules (Recommended.asConfig Recommended.recommended)) n ->
        count_occ string_dec (map name diffs) n = 0).
Proof.
  apply (compareRules_covers_union_once localeCompare_root
           (extractRules local_project)
           (extractRules (Recommended.asConfig Recommended.recommended)));
    reflexivity.
Defined.

(** C7.  A rule name is classified [added] exactly when the local mapping
    lacks it and the reference mapping has it, and [removed] exactly when the
    local mapping has it and the reference mapping lacks it. *)
Theorem compareRules_added_removed_iff :
  forall (localeCompare : string -> string -> Z)
         (localRules functypeRules : Map RuleData),
    wellFormedRules localRules = true ->
    wellFormedRules functypeRules = true ->
    exists diffs,
      compareRules localeCompare localRules functypeRules = Normal diffs /\
      forall n,
        ((exists d, In d diffs /\ name d = n /\ status d = added) <->
         (Map_get localRules n = None /\ Map_get functypeRules n <> None)) /\
        ((exists d, In d diffs /\ name d = n /\ status d = removed) <->
         (Map_get localRules n <> None /\ Map_get functypeRules n = None)).
Proof.
  intros cmp L F HL HF.
  destruct (compareRules_returns cmp L F HL HF) as [diffs Hrun].
  exists diffs. split; [exact Hrun|]. intros n. split; split.
  - intros (d & Hd & Hname & Hst).
    apply (compareRules_entry_inv cmp L F diffs Hrun) in Hd as [_ Hd].
    rewrite Hname in Hd.
    round_cases Hd; subst d; simpl in Hst; try discriminate.
    split; congruence.
  - intros [Hl Hf].
    assert (Hn : inUnion L F n).
    { right. destruct (Map_get F n) eqn:E; [|congruence].
      now apply Map_get_Some_In in E. }
    destruct (compareRules_entry cmp L F diffs Hrun n Hn) as (d & Hd & Hname & Hr).
    exists d. repeat split; try assumption.
    round_cases Hr; subst d; try congruence. reflexivity.
  - intros (d & Hd & Hname & Hst).
    apply (compareRules_entry_inv cmp L F diffs Hrun) in Hd as [_ Hd].
    rewrite Hname in Hd.
    round_cases Hd; subst d; simpl in Hst; try discriminate.
    split; congruence.
  - intros [Hl Hf].
    assert (Hn : inUnion L F n).
    { left. destruct (Map_get L n) eqn:E; [|congruence].
      now apply Map_get_Some_In in E. }
    destruct (compareRules_entry cmp L F diffs Hrun n Hn) as (d & Hd & Hname & Hr).
    exists d. repeat split; try assumption.
    round_cases Hr; subst d; try congruence. reflexivity.
Qed.

Lemma compareRules_added_removed_iff_witness :
  exists diffs,
    compareRules localeCompare_root (extractRules local_project)
      (extractRules (Recommended.asConfig Recommended.recommended))
    = Normal diffs /\
    forall n,
      ((exists d, In d diffs /\ name d = n /\ status d = added) <->
       (Map_get (extractRules local_project) n = None /\
        Map_get (extractRules (Recommended.asConfig Recommended.recommended)) n
        <> None)) /\
      ((exists d, In d diffs /\ name d = n /\ status d = removed) <->
       (Map_get (extractRules local_project) n <> None /\
        Map_get (extractRules (Recommended.asConfig Recommended.recommended)) n
        = None)).
Proof.
  apply (compareRules_added_removed_iff localeCompare_root
           (extractRules local_project)
           (extractRules (Recommended.asConfig Recommended.recommended)));
    reflexivity.
Defined.



(** The scenario of the specification: options [{a:1}] against [{a:2}]. *)
Example compareRules_foo_scenario :
  forall localeCompare,
    compareRules localeCompare (extractRules local_foo) (extractRules reference_foo)
    = Normal
        [ {| name := "foo"; status := different;
             localSeverity := Some S_error; functypeSeverity := Some S_error;
             localOptions := Some [JsObject [("a", JsNumber 1)]];
             functypeOptions := Some [JsObject [("a", JsNumber 2)]] |} ].
Proof. intros cmp. reflexivity. Qed.

(** ** Orders on rule names *)

Lemma String_compare_refl (s : string) : String.compare s s = Eq.
Proof.
  induction s as [|c s IH]; simpl; [reflexivity|].
  unfold Ascii.compare. now rewrite N.compare_refl.
Qed.

Lemma String_compare_Lt_trans (a b c : string) :
  String.compare a b = Lt -> String.compare b c = Lt -> String.compare a c = Lt.
Proof.
  revert b c. induction a as [|x a IH]; intros [|y b] [|z c]; simpl;
    try discriminate; try reflexivity.
  unfold Ascii.compare.
  destruct (N.compare (N_of_ascii x) (N_of_ascii y)) eqn:Exy;
    destruct (N.compare (N_of_ascii y) (N_of_ascii z)) eqn:Eyz;
    intros Hab Hbc; try discriminate.
  - apply N.compare_eq_iff in Exy, Eyz. rewrite Exy, Eyz, N.compare_refl.
    now apply (IH b c).
  - apply N.compare_eq_iff in Exy. now rewrite Exy, Eyz.
  - apply N.compare_eq_iff in Eyz. now rewrite <- Eyz, Exy.
  - rewrite N.compare_lt_iff in Exy, Eyz.
    assert (E : N.compare (N_of_ascii x) (N_of_ascii z) = Lt)
      by (apply N.compare_lt_iff; lia).
    now rewrite E.
Qed.

Lemma String_compare_notGt_trans (a b c : string) :
  String.compare a b <> Gt -> String.compare b c <> Gt ->
  String.compare a c <> Gt.
Proof.
  intros Hab Hbc.
  destruct (String.compare a b) eqn:Eab; [| |congruence];
    destruct (String.compare b c) eqn:Ebc; try congruence.
  - apply String.compare_eq_iff in Eab, Ebc. subst.
    rewrite String_compare_refl. discriminate.
  - apply String.compare_eq_iff in Eab. subst. rewrite Ebc. discriminate.
  - apply String.compare_eq_iff in Ebc. subst. rewrite Eab. discriminate.
  - rewrite (String_compare_Lt_trans a b c Eab Ebc). discriminate.
Qed.

Lemma String_compare_Gt_Lt (a b : string) :
  String.compare a b = Gt -> String.compare b a = Lt.
Proof.
  intros H. rewrite String.compare_antisym, H. reflexivity.
Qed.

(** When the root collation does not put [a] after [b]. *)
Lemma localeCompare_root_le (a b : string) :
  (localeCompare_root a b <= 0)%Z <->
  String.compare (toLowerCase a) (toLowerCase b) = Lt \/
  (toLowerCase a = toLowerCase b /\ String.compare b a <> Gt).
Proof.
  unfold localeCompare_root.
  destruct (String.compare (toLowerCase a) (toLowerCase b)) eqn:E.
  - apply String.compare_eq_iff in E.
    destruct (String.compare b a); simpl; split;
      try (intros _; right; split; [assumption | discriminate]);
      try (intros _; lia); try lia.
    intros [H|[_ H]]; [discriminate | congruence].
  - simpl. split; [now left | lia].
  - simpl. split; [lia|].
    intros [H|[H _]]; [discriminate|].
    rewrite H, String_compare_refl in E. discriminate.
Qed.

Lemma localeCompare_root_consistent : consistentComparator localeCompare_root.
Proof.
  split.
  - intros a b Hab. apply localeCompare_root_le.
    unfold localeCompare_root in Hab.
    destruct (String.compare (toLowerCase a) (toLowerCase b)) eqn:E.
    + apply String.compare_eq_iff in E. right. split; [now symmetry|].
      destruct (String.compare b a) eqn:Eba; simpl in Hab; try lia.
      apply String_compare_Gt_Lt in Eba. congruence.
    + simpl in Hab. lia.
    + left. now apply String_compare_Gt_Lt.
  - intros a b c Hab Hbc. apply localeCompare_root_le.
    apply localeCompare_root_le in Hab, Hbc.
    destruct Hab as [Hab|[Hab Hab']], Hbc as [Hbc|[Hbc Hbc']].
    + left. now apply (String_compare_Lt_trans _ (toLowerCase b)).
    + left. now rewrite <- Hbc.
    + left. now rewrite Hab.
    + right. split; [congruence|].
      now apply (String_compare_notGt_trans c b a).
Qed.

(** C3 as stated fails: under a consistent host collation that orders letters
    without regard to case, the rule [a] of the local mapping comes before
    the rule [B] of the reference mapping, which the ordinal order puts
    first. *)
Lemma compareRules_not_ordinal_sorted :
  ~ (forall (localeCompare : string -> string -> Z)
            (localRules functypeRules : Map RuleData)
            (diffs : list RuleDiff),
        consistentComparator localeCompare ->
        compareRules localeCompare localRules functypeRules = Normal diffs ->
        ordinalSorted (map name diffs)).
Proof.
  intros H.
  specialize (H localeCompare_root (extractRules local_a)
                (extractRules reference_B) _
                localeCompare_root_consistent eq_refl).
  unfold ordinalSorted in H. simpl in H.
  apply StronglySorted_inv in H as [_ H].
  apply Forall_inv in H. vm_compute in H. now apply H.
Qed.

(** C3, amended.  For well-formed mappings the diff is sorted by rule name in
    the order of the host's [localeCompare]: whenever that comparison is a
    consistent comparator, no entry's name compares greater than the name of
    a later entry.  The order is the host's collation, not the ordinal one. *)
Theorem compareRules_sorted_by_localeCompare :
  forall (localeCompare : string -> string -> Z)
         (localRules functypeRules : Map RuleData),
    consistentComparator localeCompare ->
    wellFormedRules localRules = true ->
    wellFormedRules functypeRules = true ->
    exists diffs,
      compareRules localeCompare localRules functypeRules = Normal diffs /\
      sortedByName localeCompare diffs.
Proof.
  intros cmp L F Hcmp HL HF.
  destruct (compareRules_returns cmp L F HL HF) as [diffs Hrun].
  exists diffs. split; [exact Hrun|].
  destruct (compareRules_inv cmp L F diffs Hrun) as (raw & _ & ->).
  unfold sortedByName.
  apply (Array_sort_sorted (fun a b : RuleDiff => cmp (name a) (name b))).
  destruct Hcmp as [Htotal Htrans]. split.
  - intros a b. apply Htotal.
  - intros a b c. apply Htrans.
Qed.

Lemma compareRules_sorted_by_localeCompare_witness :
  exists diffs,
    compareRules localeCompare_root (extractRules local_project)
      (extractRules (Recommended.asConfig Recommended.recommended))
    = Normal diffs /\
    sortedByName localeCompare_root diffs.
Proof.
  apply (compareRules_sorted_by_localeCompare localeCompare_root
           (extractRules local_project)
           (extractRules (Recommended.asConfig Recommended.recommended))).
  - exact localeCompare_root_consistent.
  - reflexivity.
  - reflexivity.
Defined.

(** ** Totality *)

Lemma forEach_throws {E S A : Type}
  (callbackfn : S -> A -> Completion E S) (l : list A) (s : S) (e : E) :
  forEach l callbackfn s = Throw e ->
  exists s' x, In x l /\ callbackfn s' x = Throw e.
Proof.
  revert s. induction l as [|x l IH]; intros s; simpl; [discriminate|].
  destruct (callbackfn s x) as [s1|e1] eqn:E1; cbn [bind].
  - intros H. destruct (IH s1 H) as (s' & y & Hy & Hthrow).
    exists s', y. split; [now right | assumption].
  - intros [= ->]. exists s, x. split; [now left | assumption].
Qed.

(** The only abrupt completion of a round is the TypeError of
    [JSON.stringify] on the options of a rule both mappings declare. *)
Lemma compareRule_throws (localRules functypeRules : Map RuleData)
  (acc : list RuleDiff) (n : string) (e : JsError) :
  compareRule localRules functypeRules acc n = Throw e ->
  exists l f,
    Map_get localRules n = Some l /\ Map_get functypeRules n = Some f /\
    (existsb containsBigInt (options l)
     || existsb containsBigInt (options f)) = true.
Proof.
  unfold compareRule.
  destruct (Map_get localRules n) as [l|], (Map_get functypeRules n) as [f|];
    try discriminate.
  intros H. exists l, f. repeat split.
  destruct (JSON_stringify (JsArray (options l))) as [lj|el] eqn:El;
    cbn [bind] in H.
  - destruct (JSON_stringify (JsArray (options f))) as [fj|ef] eqn:Ef;
      cbn [bind] in H.
    + destruct (negb _ || _); discriminate.
    + apply JSON_stringify_options_throws in Ef. rewrite Ef. apply orb_true_r.
  - apply JSON_stringify_options_throws in El. now rewrite El.
Qed.

Lemma compareRules_throws (localeCompare : string -> string -> Z)
  (localRules functypeRules : Map RuleData) (e : JsError) :
  compareRules localeCompare localRules functypeRules = Throw e ->
  exists n l f,
    Map_get localRules n = Some l /\ Map_get functypeRules n = Some f /\
    (existsb containsBigInt (options l)
     || existsb containsBigInt (options f)) = true.
Proof.
  unfold compareRules.
  destruct (forEach _ _ []) as [raw|e'] eqn:E; cbn [bind]; [discriminate|].
  intros [= ->]. apply forEach_throws in E as (acc & n & _ & Hthrow).
  exists n. now apply (compareRule_throws _ _ acc n e).
Qed.



(** ** Swapping the two mappings *)

Lemma mirror_name (d : RuleDiff) : name (mirror d) = name d.
Proof. reflexivity. Qed.

Lemma mirror_involutive (d : RuleDiff) : mirror (mirror d) = d.
Proof. destruct d as [n st ls fs lo fo]. now destruct st. Qed.

(** A round run with the mappings swapped pushes the mirrored entry. *)
Lemma compareRule_mirror (localRules functypeRules : Map RuleData)
  (n : string) (d : RuleDiff) :
  compareRule localRules functypeRules [] n = Normal [d] ->
  compareRule functypeRules localRules [] n = Normal [mirror d].
Proof.
  unfold compareRule.
  destruct (Map_get localRules n) as [l|], (Map_get functypeRules n) as [f|];
    cbn [bind Array_push app]; try discriminate.
  - destruct (JSON_stringify (JsArray (options l))) as [lj|];
      cbn [bind]; [|discriminate].
    destruct (JSON_stringify (JsArray (options f))) as [fj|];
      cbn [bind]; [|discriminate].
    rewrite (RuleSeverity_strictEq_sym (severity f) (severity l)).
    rewrite (strictNotEq_sym fj lj).
    destruct (negb _ || _); cbn [Array_push app]; intros [= <-]; reflexivity.
  - intros [= <-]. reflexivity.
  - intros [= <-]. reflexivity.
Qed.

Lemma inUnion_swap (localRules functypeRules : Map RuleData) (n : string) :
  inUnion localRules functypeRules n -> inUnion functypeRules localRules n.
Proof. unfold inUnion. tauto. Qed.

Lemma NoDup_of_names (diffs : list RuleDiff) :
  NoDup (map name diffs) -> NoDup diffs.
Proof. apply NoDup_map_inv. Qed.

(** C6.  Swapping which mapping is local and which is the reference gives
    the mirrored diff: the same rule names, [added] and [removed] exchanged,
    [same] and [different] kept, and the local and reference fields of every
    entry exchanged.  (Entries are matched by name; the two runs list them in
    the order the host comparison gives.) *)
Theorem compareRules_swap_mirrors :
  forall (localeCompare : string -> string -> Z)
         (localRules functypeRules : Map RuleData),
    wellFormedRules localRules = true ->
    wellFormedRules functypeRules = true ->
    exists diffs swapped,
      compareRules localeCompare localRules functypeRules = Normal diffs /\
      compareRules localeCompare functypeRules localRules = Normal swapped /\
      Permutation swapped (map mirror diffs) /\
      (forall d, In d diffs ->
         exists d', In d' swapped /\ name d' = name d /\
                    status d' = swapStatus (status d) /\
                    localSeverity d' = functypeSeverity d /\
                    functypeSeverity d' = localSeverity d /\
                    localOptions d' = functypeOptions d /\
                    functypeOptions d' = localOptions d).
Proof.
  intros cmp L F HL HF.
  destruct (compareRules_returns cmp L F HL HF) as [diffs Hrun].
  destruct (compareRules_returns cmp F L HF HL) as [swapped Hswap].
  exists diffs, swapped. split; [exact Hrun|]. split; [exact Hswap|].
  assert (Hto : forall d, In d diffs -> In (mirror d) swapped).
  { intros d Hd.
    destruct (compareRules_entry_inv cmp L F diffs Hrun d Hd) as [Hn Hr].
    apply compareRule_mirror in Hr.
    destruct (compareRules_entry cmp F L swapped Hswap (name d)
                (inUnion_swap L F _ Hn)) as (d' & Hd' & _ & Hr').
    assert (d' = mirror d) by congruence. now subst d'. }
  assert (Hfrom : forall d', In d' swapped -> In d' (map mirror diffs)).
  { intros d' Hd'.
    destruct (compareRules_entry_inv cmp F L swapped Hswap d' Hd') as [Hn Hr].
    apply compareRule_mirror in Hr.
    destruct (compareRules_entry cmp L F diffs Hrun (name d')
                (inUnion_swap F L _ Hn)) as (d & Hd & _ & Hr').
    assert (d = mirror d') by congruence. subst d.
    apply in_map_iff. exists (mirror d'). split; [apply mirror_involutive|exact Hd]. }
  split.
  - apply NoDup_Permutation.
    + apply NoDup_of_names, (compareRules_NoDup_names cmp F L swapped Hswap).
    + apply NoDup_of_names. rewrite map_map.
      rewrite (map_ext _ name mirror_name).
      exact (compareRules_NoDup_names cmp L F diffs Hrun).
    + intros d'. split; [apply Hfrom|].
      intros Hd'. apply in_map_iff in Hd' as (d & <- & Hd). now apply Hto.
  - intros d Hd. exists (mirror d). split; [now apply Hto|]. repeat split.
Qed.

Lemma compareRules_swap_mirrors_witness :
  exists diffs swapped,
    compareRules localeCompare_root (extractRules local_project)
      (extractRules (Recommended.asConfig Recommended.recommended))
    = Normal diffs /\
    compareRules localeCompare_root
      (extractRules (Recommended.asConfig Recommended.recommended))
      (extractRules local_project)
    = Normal swapped /\
    Permutation swapped (map mirror diffs) /\
    (forall d, In d diffs ->
       exists d', In d' swapped /\ name d' = name d /\
                  status d' = swapStatus (status d) /\
                  localSeverity d' = functypeSeverity d /\
                  functypeSeverity d' = localSeverity d /\
                  localOptions d' = functypeOptions d /\
                  functypeOptions d' = localOptions d).
Proof.
  apply (compareRules_swap_mirrors localeCompare_root
           (extractRules local_project)
           (extractRules (Recommended.asConfig Recommended.recommended)));
    reflexivity.
Defined.

(** ** Independence from the provenance label *)

Lemma agreeUpToSource_keys (m m' : Map RuleData) :
  agreeUpToSource m m' -> Map_keys m = Map_keys m'.
Proof.
  induction 1 as [|e e' m m' (Hk & _) _ IH]; simpl; [reflexivity|].
  now rewrite Hk, IH.
Qed.

Lemma agreeUpToSource_get (m m' : Map RuleData) (n : string) :
  agreeUpToSource m m' ->
  match Map_get m n, Map_get m' n with
  | Some r, Some r' => severity r = severity r' /\ options r = options r'
  | None, None => True
  | _, _ => False
  end.
Proof.
  induction 1 as [|[k r] [k' r'] m m' (Hk & Hs & Ho) _ IH]; simpl; [exact I|].
  simpl in Hk, Hs, Ho. subst k'.
  destruct (k =? n)%string; [now split | exact IH].
Qed.

Lemma forEach_ext {E S A : Type} (f g : S -> A -> Completion E S) (l : list A) :
  (forall s x, f s x = g s x) -> forall s, forEach l f s = forEach l g s.
Proof.
  intros Hfg. induction l as [|x l IH]; intros s; simpl; [reflexivity|].
  rewrite Hfg. destruct (g s x) as [s'|e]; cbn [bind]; [apply IH | reflexivity].
Qed.

Lemma compareRule_agree (L L' F F' : Map RuleData)
  (acc : list RuleDiff) (n : string) :
  agreeUpToSource L L' -> agreeUpToSource F F' ->
  compareRule L F acc n = compareRule L' F' acc n.
Proof.
  intros HL HF. unfold compareRule.
  pose proof (agreeUpToSource_get L L' n HL) as Hl.
  pose proof (agreeUpToSource_get F F' n HF) as Hf.
  destruct (Map_get L n) as [l|], (Map_get L' n) as [l'|]; try contradiction;
    destruct (Map_get F n) as [f|], (Map_get F' n) as [f'|]; try contradiction;
    repeat match goal with
           | H : _ /\ _ |- _ => let Hs := fresh in let Ho := fresh in
                                destruct H as [Hs Ho]; rewrite Hs, Ho
           end; reflexivity.
Qed.

(** C10.  The diff does not depend on the [source] labels: two pairs of
    mappings that agree on every rule's name, severity and options give the
    same result, hence the same status for every rule name. *)
Theorem compareRules_ignores_source :
  forall (localeCompare : string -> string -> Z)
         (localRules localRules' functypeRules functypeRules' : Map RuleData),
    agreeUpToSource localRules localRules' ->
    agreeUpToSource functypeRules functypeRules' ->
    compareRules localeCompare localRules functypeRules
    = compareRules localeCompare localRules' functypeRules' /\
    (forall diffs diffs',
        compareRules localeCompare localRules functypeRules = Normal diffs ->
        compareRules localeCompare localRules' functypeRules' = Normal diffs' ->
        map (fun d => (name d, status d)) diffs
        = map (fun d => (name d, status d)) diffs').
Proof.
  intros cmp L L' F F' HL HF.
  assert (Heq : compareRules cmp L F = compareRules cmp L' F').
  { unfold compareRules.
    rewrite (agreeUpToSource_keys L L' HL), (agreeUpToSource_keys F F' HF).
    rewrite (forEach_ext (compareRule L F) (compareRule L' F')); [reflexivity|].
    intros acc n. now apply compareRule_agree. }
  split; [exact Heq|].
  intros diffs diffs' H H'. rewrite Heq in H. congruence.
Qed.

Lemma agreeUpToSource_relabel (label : string) (m : Map RuleData) :
  agreeUpToSource m (relabel label m).
Proof.
  induction m as [|[k r] m IH]; simpl; constructor; [|exact IH].
  repeat split.
Qed.

Lemma compareRules_ignores_source_witness :
  compareRules localeCompare_root (extractRules local_project)
    (extractRules (Recommended.asConfig Recommended.recommended))
  = compareRules localeCompare_root
      (relabel "my-plugin" (extractRules local_project))
      (relabel "bundled"
         (extractRules (Recommended.asConfig Recommended.recommended))) /\
  (forall diffs diffs',
      compareRules localeCompare_root (extractRules local_project)
        (extractRules (Recommended.asConfig Recommended.recommended))
      = Normal diffs ->
      compareRules localeCompare_root
        (relabel "my-plugin" (extractRules local_project))
        (relabel "bundled"
           (extractRules (Recommended.asConfig Recommended.recommended)))
      = Normal diffs' ->
      map (fun d => (name d, status d)) diffs
      = map (fun d => (name d, status d)) diffs').
Proof.
  apply (compareRules_ignores_source localeCompare_root
           (extractRules local_project)
           (relabel "my-plugin" (extractRules local_project))
           (extractRules (Recommended.asConfig Recommended.recommended))
           (relabel "bundled"
              (extractRules (Recommended.asConfig Recommended.recommended)))).
  - vm_compute. repeat constructor.
  - vm_compute. repeat constructor.
Defined.

(** ** Extraction of rule declarations *)

Section MapSetFacts.
Context {V : Type}.

Lemma Map_get_set_same (m : Map V) (key : string) (v : V) :
  Map_get (Map_set m key v) key = Some v.
Proof.
  induction m as [|[k w] m IH]; simpl.
  - now rewrite String.eqb_refl.
  - destruct (k =? key)%string eqn:E; simpl; rewrite E; [reflexivity | exact IH].
Qed.

Lemma Map_get_set_other (m : Map V) (key key' : string) (v : V) :
  key <> key' -> Map_get (Map_set m key v) key' = Map_get m key'.
Proof.
  intros Hne. induction m as [|[k w] m IH]; simpl.
  - apply String.eqb_neq in Hne. now rewrite Hne.
  - destruct (String.eqb_spec k key) as [->|Hk]; simpl.
    + apply String.eqb_neq in Hne. now rewrite Hne.
    + destruct (k =? key')%string; [reflexivity | exact IH].
Qed.
End MapSetFacts.

(** Later declarations of other rules leave the entry of [n] alone. *)
Lemma extractRule_fold_other (post : list (string * RuleConfig))
  (m : Map RuleData) (n : string) :
  ~ In n (map fst post) ->
  Map_get (fold_left extractRule post m) n = Map_get m n.
Proof.
  revert m. induction post as [|[k c] post IH]; intros m Hn; simpl.
  - reflexivity.
  - simpl in Hn. rewrite IH by tauto.
    apply Map_get_set_other. intros ->. tauto.
Qed.

Lemma extractRules_declared (pre post : list (string * RuleConfig))
  (n : string) (c : RuleConfig) :
  ~ In n (map fst post) ->
  Map_get (extractRules (configOf (pre ++ (n, c) :: post))) n
  = Map_get (extractRule [] (n, c)) n.
Proof.
  intros Hn. unfold extractRules, configOf. cbn [rules].
  rewrite fold_left_app. cbn [fold_left].
  rewrite extractRule_fold_other by assumption.
  unfold extractRule. now rewrite !Map_get_set_same.
Qed.

(** C5.  A rule declared by a bare severity and the same rule declared by
    the one-element array of that severity are extracted to the same rule
    data, with an empty options array; a configuration is extracted to the
    same mapping whichever way the rule is written; and when each of two
    configurations declares the rule in either of the two ways with the same
    severity, the differ classifies it [same]. *)
Theorem bare_severity_equals_single_element_array :
  forall (localeCompare : string -> string -> Z)
         (n : string) (s : RuleSeverity)
         (c c' : RuleConfig)
         (pre post pre' post' : list (string * RuleConfig)),
    (c = BareSeverity s \/ c = SeverityArray s []) ->
    (c' = BareSeverity s \/ c' = SeverityArray s []) ->
    ~ In n (map fst post) ->
    ~ In n (map fst post') ->
    wellFormedRules (extractRules (configOf (pre ++ (n, c) :: post))) = true ->
    wellFormedRules (extractRules (configOf (pre' ++ (n, c') :: post'))) = true ->
    extractRules (configOf (pre ++ (n, BareSeverity s) :: post))
    = extractRules (configOf (pre ++ (n, SeverityArray s []) :: post)) /\
    Map_get (extractRules (configOf (pre ++ (n, c) :: post))) n
    = Some {| severity := s; options := []; source := getRuleSource n |} /\
    Map_get (extractRules (configOf (pre' ++ (n, c') :: post'))) n
    = Some {| severity := s; options := []; source := getRuleSource n |} /\
    exists diffs d,
      compareRules localeCompare
        (extractRules (configOf (pre ++ (n, c) :: post)))
        (extractRules (configOf (pre' ++ (n, c') :: post')))
      = Normal diffs /\
      In d diffs /\ name d = n /\ status d = same.
Proof.
  intros cmp n s c c' pre post pre' post' Hc Hc' Hn Hn' Hwf Hwf'.
  assert (Hget : Map_get (extractRules (configOf (pre ++ (n, c) :: post))) n
                 = Some (mkRuleData s [] (getRuleSource n))).
  { rewrite extractRules_declared by assumption.
    destruct Hc as [-> | ->]; simpl; now rewrite String.eqb_refl. }
  assert (Hget' : Map_get (extractRules (configOf (pre' ++ (n, c') :: post'))) n
                  = Some (mkRuleData s [] (getRuleSource n))).
  { rewrite extractRules_declared by assumption.
    destruct Hc' as [-> | ->]; simpl; now rewrite String.eqb_refl. }
  split.
  { unfold extractRules, configOf. cbn [rules].
    rewrite !fold_left_app. reflexivity. }
  split; [exact Hget|]. split; [exact Hget'|].
  set (A := extractRules (configOf (pre ++ (n, c) :: post))) in *.
  set (B := extractRules (configOf (pre' ++ (n, c') :: post'))) in *.
  destruct (compareRules_returns cmp A B Hwf Hwf') as [diffs Hrun].
  assert (HnA : inUnion A B n) by (left; now apply Map_get_Some_In in Hget).
  destruct (compareRules_entry cmp A B diffs Hrun n HnA) as (d & Hd & Hname & Hr).
  exists diffs, d. repeat (split; [assumption|]).
  unfold compareRule in Hr. rewrite Hget, Hget' in Hr.
  cbn [severity options] in Hr.
  assert (Hs : RuleSeverity_strictEq s s = true)
    by now apply RuleSeverity_strictEq_iff.
  rewrite Hs in Hr. vm_compute in Hr. now injection Hr as <-.
Qed.

Lemma bare_severity_equals_single_element_array_witness :
  extractRules
    (configOf ([("eqeqeq", BareSeverity S_error)]
               ++ ("no-var", BareSeverity S_error)
               :: [("prefer-const", BareSeverity S_warn)]))
  = extractRules
      (configOf ([("eqeqeq", BareSeverity S_error)]
                 ++ ("no-var", SeverityArray S_error [])
                 :: [("prefer-const", BareSeverity S_warn)])) /\
  Map_get
    (extractRules
       (configOf ([("eqeqeq", BareSeverity S_error)]
                  ++ ("no-var", BareSeverity S_error)
                  :: [("prefer-const", BareSeverity S_warn)]))) "no-var"
  = Some {| severity := S_error; options := [];
            source := getRuleSource "no-var" |} /\
  Map_get
    (extractRules
       (configOf ([("prefer-const", BareSeverity S_error)]
                  ++ ("no-var", SeverityArray S_error [])
                  :: [("no-throw-literal", BareSeverity S_error)]))) "no-var"
  = Some {| severity := S_error; options := [];
            source := getRuleSource "no-var" |} /\
  exists diffs d,
    compareRules localeCompare_root
      (extractRules
         (configOf ([("eqeqeq", BareSeverity S_error)]
                    ++ ("no-var", BareSeverity S_error)
                    :: [("prefer-const", BareSeverity S_warn)])))
      (extractRules
         (configOf ([("prefer-const", BareSeverity S_error)]
                    ++ ("no-var", SeverityArray S_error [])
                    :: [("no-throw-literal", BareSeverity S_error)])))
    = Normal diffs /\
    In d diffs /\ name d = "no-var" /\ status d = same.
Proof.
  apply (bare_severity_equals_single_element_array localeCompare_root
           "no-var" S_error
           (BareSeverity S_error) (SeverityArray S_error [])
           [("eqeqeq", BareSeverity S_error)]
           [("prefer-const", BareSeverity S_warn)]
           [("prefer-const", BareSeverity S_error)]
           [("no-throw-literal", BareSeverity S_error)]).
  - left. reflexivity.
  - right. reflexivity.
  - simpl. intros [H|[]]. discriminate H.
  - simpl. intros [H|[]]. discriminate H.
  - reflexivity.
  - reflexivity.
Defined.

(** ** Severity synonyms *)

(** Two declarations of a rule whose severities are written differently are
    reported [different], whatever the severities stand for. *)
Lemma compareRules_distinct_encodings_different
  (localeCompare : string -> string -> Z)
  (localRules functypeRules : Map RuleData) (n : string) (l f : RuleData) :
  wellFormedRules localRules = true ->
  wellFormedRules functypeRules = true ->
  Map_get localRules n = Some l ->
  Map_get functypeRules n = Some f ->
  severity l <> severity f ->
  exists diffs d,
    compareRules localeCompare localRules functypeRules = Normal diffs /\
    In d diffs /\ name d = n /\ status d = different.
Proof.
  intros HL HF Hl Hf Hne.
  destruct (compareRules_returns localeCompare _ _ HL HF) as [diffs Hrun].
  assert (Hn : inUnion localRules functypeRules n)
    by (left; now apply Map_get_Some_In in Hl).
  destruct (compareRules_entry _ _ _ diffs Hrun n Hn) as (d & Hd & Hname & Hr).
  exists diffs, d. repeat (split; [assumption|]).
  round_cases Hr; try congruence.
  - now subst d.
  - injection Hl as ->. injection Hf as ->.
    apply orb_false_iff in Ec as [Es _].
    apply negb_false_iff, RuleSeverity_strictEq_iff in Es. contradiction.
Qed.

(** C1.  What the code does on the rule [no-var] declared ["error"] locally
    and [2] in the reference, both without options: the two severities mean
    the same and are displayed alike by [formatSeverity], yet the differ
    reports the rule as [different]. *)
Theorem compareRules_error_vs_2 :
  forall localeCompare : string -> string -> Z,
    canonicalSeverity S_error = canonicalSeverity N_2 /\
    formatSeverity S_error = formatSeverity N_2 /\
    compareRules localeCompare
      (extractRules local_noVar) (extractRules reference_noVar_numeric)
    = Normal
        [ {| name := "no-var"; status := different;
             localSeverity := Some S_error; functypeSeverity := Some N_2;
             localOptions := Some []; functypeOptions := Some [] |} ].
Proof. intros cmp. repeat split. Qed.

(** The scenario of the specification with [no-var] and [prefer-const]. *)
Example compareRules_noVar_scenario :
  option_map (map (fun d => (name d, status d)))
    (match compareRules localeCompare_root (extractRules local_noVar)
             (extractRules reference_noVar_preferConst) with
     | Normal diffs => Some diffs
     | Throw _ => None
     end)
  = Some [("no-var", different); ("prefer-const", added)].
Proof. reflexivity. Qed.

(** ** The profile loader *)

Lemma fold_console_warn (prefix : string) (ws console : list string) :
  fold_left
    (fun console warning =>
       Recommended.console_warn console (prefix ++ warning)) ws console
  = (console ++ map (fun warning => (prefix ++ warning)%string) ws)%list.
Proof.
  revert console. induction ws as [|w ws IH]; intros console; simpl.
  - now rewrite app_nil_r.
  - rewrite IH. unfold Recommended.console_warn.
    now rewrite <- app_assoc.
Qed.

(** C9.  With the validation gate on, an invalid result makes the module
    throw the error [createValidationError] builds from it, before anything
    is logged and without reaching the export; a valid result lets the module
    export the profile, after logging, when there are warnings, a header,
    each warning in order and an empty line. *)
Theorem loadModule_validation :
  forall (Environment Error : Type)
         (shouldValidateDependencies : Environment -> bool)
         (validatePeerDependencies : Environment -> Recommended.ValidationResult)
         (createValidationError : Recommended.ValidationResult -> Error)
         (env : Environment) (console : list string),
    shouldValidateDependencies env = true ->
    (Recommended.isValid (validatePeerDependencies env) = false ->
     Recommended.loadModule Environment Error shouldValidateDependencies
       validatePeerDependencies createValidationError env console
     = (Throw (createValidationError (validatePeerDependencies env)), console)) /\
    (Recommended.isValid (validatePeerDependencies env) = true ->
     Recommended.loadModule Environment Error shouldValidateDependencies
       validatePeerDependencies createValidationError env console
     = (Normal Recommended.recommended,
        match Recommended.warnings (validatePeerDependencies env) with
        | [] => console
        | ws =>
            console
            ++ [(Recommended.lineFeed ++ "⚠️  eslint-config-functype warnings:")%string]
            ++ map (fun warning => ("   " ++ warning)%string) ws
            ++ [""]
        end%list)).
Proof.
  intros Environment Error should validate mkError env console Hgate.
  unfold Recommended.loadModule, Recommended.validateOnLoad.
  rewrite Hgate. split; intros Hvalid; rewrite Hvalid; cbn [negb].
  - reflexivity.
  - destruct (Recommended.warnings (validate env)) as [|w ws] eqn:Ew.
    + reflexivity.
    + cbn [List.length Nat.ltb Nat.leb].
      rewrite fold_console_warn. unfold Recommended.console_warn.
      now rewrite <- !app_assoc.
Qed.

Lemma loadModule_validation_witness :
  (Recommended.isValid (sample_validate false) = false ->
   Recommended.loadModule bool string (fun _ => true) sample_validate
     sample_createValidationError false []
   = (Throw (sample_createValidationError (sample_validate false)), [])) /\
  (Recommended.isValid (sample_validate false) = true ->
   Recommended.loadModule bool string (fun _ => true) sample_validate
     sample_createValidationError false []
   = (Normal Recommended.recommended,
      match Recommended.warnings (sample_validate false) with
      | [] => []
      | ws =>
          []
          ++ [(Recommended.lineFeed ++ "⚠️  eslint-config-functype warnings:")%string]
          ++ map (fun warning => ("   " ++ warning)%string) ws
          ++ [""]
      end%list)).
Proof.
  apply (loadModule_validation bool string (fun _ => true) sample_validate
           sample_createValidationError false []).
  reflexivity.
Defined.

(** The two outcomes on the sample hosts. *)
Example loadModule_missing_required :
  Recommended.loadModule bool string (fun _ => true) sample_validate
    sample_createValidationError false []
  = (Throw "eslint-plugin-functional", []).
Proof. reflexivity. Qed.

Example loadModule_missing_optional :
  Recommended.loadModule bool string (fun _ => true) sample_validate
    sample_createValidationError true []
  = (Normal Recommended.recommended,
     [ Recommended.lineFeed ++ "⚠️  eslint-config-functype warnings:";
       "   eslint-plugin-prettier is not installed";
       "" ]).
Proof. reflexivity. Qed.

(** With the gate off nothing is validated, thrown or logged. *)
Lemma loadModule_gate_off
  (Environment Error : Type)
  (shouldValidateDependencies : Environment -> bool)
  (validatePeerDependencies : Environment -> Recommended.ValidationResult)
  (createValidationError : Recommended.ValidationResult -> Error)
  (env : Environment) (console : list string) :
  shouldValidateDependencies env = false ->
  Recommended.loadModule Environment Error shouldValidateDependencies
    validatePeerDependencies createValidationError env console
  = (Normal Recommended.recommended, console).
Proof.
  intros Hgate. unfold Recommended.loadModule, Recommended.validateOnLoad.
  now rewrite Hgate.
Qed.


(** * Further properties of the code *)

(** ** extractRules *)

Section MapInvariants.
Context {V : Type}.

Lemma Map_set_keys (m : Map V) (key : string) (v : V) :
  Map_keys (Map_set m key v) = Set_add (Map_keys m) key.
Proof.
  unfold Set_add, Set_has.
  induction m as [|[k w] m IH]; simpl; [reflexivity|].
  rewrite (String.eqb_sym key k).
  destruct (k =? key)%string; simpl; [reflexivity|].
  rewrite IH. now destruct (existsb (String.eqb key) (Map_keys m)).
Qed.

Lemma Map_set_Forall (P : string * V -> Prop) (m : Map V) (key : string) (v : V) :
  Forall P m -> P (key, v) -> Forall P (Map_set m key v).
Proof.
  intros Hm Hv. induction Hm as [|[k w] m Hk Hm IH]; simpl.
  - now constructor.
  - destruct (String.eqb_spec k key) as [->|Hne]; constructor; assumption.
Qed.


Lemma Map_set_fresh (m : Map V) (key : string) (v : V) :
  ~ In key (Map_keys m) -> Map_set m key v = (m ++ [(key, v)])%list.
Proof.
  induction m as [|[k w] m IH]; simpl; intros Hk; [reflexivity|].
  destruct (String.eqb_spec k key) as [->|Hne]; [tauto|].
  rewrite IH by tauto. reflexivity.
Qed.
End MapInvariants.

Lemma extractRule_keys (m : Map RuleData) (entry : string * RuleConfig) :
  Map_keys (extractRule m entry) = Set_add (Map_keys m) (fst entry).
Proof. destruct entry as [k c]. apply Map_set_keys. Qed.

Lemma extractRule_fold_keys (entries : list (string * RuleConfig)) (m : Map RuleData) :
  Map_keys (fold_left extractRule entries m)
  = fold_left Set_add (map fst entries) (Map_keys m).
Proof.
  revert m. induction entries as [|e entries IH]; intros m; simpl; [reflexivity|].
  now rewrite IH, extractRule_keys.
Qed.

Lemma extractRules_keys_eq (config : Config) :
  Map_keys (extractRules config) = Set_from (map fst (declaredRules config)).
Proof.
  unfold extractRules, declaredRules, Set_from.
  destruct (rules config) as [entries|]; [|reflexivity].
  apply extractRule_fold_keys.
Qed.

(** X1.  The keys of the extracted mapping are the declared rule names, each
    once, in the order of their first declaration; a name has an entry exactly
    when the configuration declares it. *)
Theorem extractRules_keys :
  forall config : Config,
    Map_keys (extractRules config) = Set_from (map fst (declaredRules config)) /\
    NoDup (Map_keys (extractRules config)) /\
    (forall n, Map_get (extractRules config) n = None
               <-> ~ In n (map fst (declaredRules config))).
Proof.
  intros config. split; [apply extractRules_keys_eq|]. split.
  - rewrite extractRules_keys_eq. apply Set_from_NoDup.
  - intros n. rewrite Map_get_None_iff, extractRules_keys_eq, Set_from_In.
    tauto.
Qed.

(** X2.  The entry of a rule holds its last declaration: the severity is the
    bare severity or the head of the array, the options are the rest of the
    array (none for a bare severity), and the source is derived from the
    name. *)
Theorem extractRules_last_declaration_wins :
  forall (pre post : list (string * RuleConfig)) (n : string) (c : RuleConfig),
    ~ In n (map fst post) ->
    Map_get (extractRules (configOf (pre ++ (n, c) :: post))) n
    = Some {| severity := match c with
                          | BareSeverity s => s
                          | SeverityArray s _ => s
                          end;
              options := match c with
                         | BareSeverity _ => []
                         | SeverityArray _ rest => rest
                         end;
              source := getRuleSource n |}.
Proof.
  intros pre post n c Hn. rewrite extractRules_declared by assumption.
  unfold extractRule. rewrite Map_get_set_same. now destruct c.
Qed.

Lemma extractRules_last_declaration_wins_witness :
  Map_get (extractRules local_redeclared) "no-var"
  = Some {| severity := S_error;
            options := [JsObject [("x", JsNumber 1)]];
            source := getRuleSource "no-var" |}.
Proof.
  apply (extractRules_last_declaration_wins
           [("no-var", BareSeverity S_warn); ("eqeqeq", BareSeverity S_error)]
           [] "no-var"
           (SeverityArray S_error [JsObject [("x", JsNumber 1)]])).
  simpl. tauto.
Defined.

Lemma extractRule_fold_Forall (P : string * RuleData -> Prop)
  (entries : list (string * RuleConfig)) (m : Map RuleData) :
  (forall e acc, In e entries -> Forall P acc -> Forall P (extractRule acc e)) ->
  Forall P m -> Forall P (fold_left extractRule entries m).
Proof.
  revert m. induction entries as [|e entries IH]; intros m Hstep Hm; simpl.
  - exact Hm.
  - apply IH.
    + intros e' acc He'. apply Hstep. now right.
    + apply Hstep; [now left | exact Hm].
Qed.

(** X3.  Every extracted rule carries the source that [getRuleSource] derives
    from its own name. *)
Theorem extractRules_source :
  forall config : Config,
    Forall (fun entry => source (snd entry) = getRuleSource (fst entry))
           (extractRules config).
Proof.
  intros config. unfold extractRules.
  destruct (rules config) as [entries|]; [|constructor].
  apply extractRule_fold_Forall; [|constructor].
  intros [k c] acc _ Hacc. unfold extractRule.
  now apply Map_set_Forall.
Qed.

Lemma extractRules_wellFormed (config : Config) :
  serializableConfig config = true ->
  wellFormedRules (extractRules config) = true.
Proof.
  unfold serializableConfig, extractRules, wellFormedRules.
  destruct (rules config) as [entries|]; [|reflexivity].
  intros Hc. rewrite forallb_forall in Hc. apply forallb_forall.
  apply Forall_forall.
  apply extractRule_fold_Forall; [|constructor].
  intros [k c] acc He Hacc. unfold extractRule.
  apply Map_set_Forall; [exact Hacc|].
  specialize (Hc _ He). simpl in *. now destruct c.
Qed.

(** X4.  Two configurations whose options can be serialized are extracted to
    well-formed mappings, and comparing what was extracted completes with a
    diff: the diff mode cannot fail on them. *)
Theorem compareRules_of_extracted_returns :
  forall (localeCompare : string -> string -> Z) (localConfig functypeConfig : Config),
    serializableConfig localConfig = true ->
    serializableConfig functypeConfig = true ->
    wellFormedRules (extractRules localConfig) = true /\
    wellFormedRules (extractRules functypeConfig) = true /\
    exists diffs,
      compareRules localeCompare (extractRules localConfig)
        (extractRules functypeConfig) = Normal diffs.
Proof.
  intros cmp A B HA HB.
  pose proof (extractRules_wellFormed A HA) as HwA.
  pose proof (extractRules_wellFormed B HB) as HwB.
  repeat split; try assumption.
  now apply compareRules_returns.
Qed.

Lemma compareRules_of_extracted_returns_witness :
  wellFormedRules (extractRules local_project) = true /\
  wellFormedRules (extractRules (Recommended.asConfig Recommended.recommended))
  = true /\
  exists diffs,
    compareRules localeCompare_root (extractRules local_project)
      (extractRules (Recommended.asConfig Recommended.recommended))
    = Normal diffs.
Proof.
  apply (compareRules_of_extracted_returns localeCompare_root local_project
           (Recommended.asConfig Recommended.recommended)); reflexivity.
Defined.

(** ** Provenance and display of a rule *)

Lemma prefix_iff_append (p s : string) :
  prefix p s = true <-> exists rest, s = p ++ rest.
Proof.
  revert s. induction p as [|a p IH]; intros s.
  - destruct s; simpl; split; try reflexivity; intros _; eexists; reflexivity.
  - destruct s as [|b s]; simpl.
    + split; [discriminate | intros [rest H]; discriminate].
    + destruct (ascii_dec a b) as [Heq|Hne].
      * subst b. rewrite IH. split; intros [rest H]; exists rest; congruence.
      * split; [discriminate | intros [rest H]; congruence].
Qed.

(** X5.  A rule is attributed to eslint-plugin-functional exactly when its
    name starts with [functional/], to the typescript-eslint plugin exactly
    when it starts with [@typescript-eslint/], and to the ESLint core in
    every other case, a rule of any other plugin included. *)
Theorem getRuleSource_by_prefix :
  forall ruleName : string,
    (getRuleSource ruleName = "eslint-plugin-functional"
     <-> exists rest, ruleName = "functional/" ++ rest) /\
    (getRuleSource ruleName = "@typescript-eslint/eslint-plugin"
     <-> exists rest, ruleName = "@typescript-eslint/" ++ rest) /\
    (getRuleSource ruleName = "eslint (core)"
     <-> ~ (exists rest, ruleName = "functional/" ++ rest) /\
         ~ (exists rest, ruleName = "@typescript-eslint/" ++ rest)).
Proof.
  intros n. unfold getRuleSource.
  rewrite <- !prefix_iff_append.
  destruct (prefix "functional/" n) eqn:Ef.
  - assert (Et : prefix "@typescript-eslint/" n = false).
    { apply prefix_iff_append in Ef as [rest ->]. reflexivity. }
    rewrite Et. repeat split; try discriminate; try reflexivity.
    intros [H _]. now contradiction H.
  - destruct (prefix "@typescript-eslint/" n) eqn:Et;
      repeat split; try discriminate; try reflexivity.
    intros [_ H]. now contradiction H.
Qed.

(** X6.  The two display functions agree on every severity: the text is the
    name of the level, never a number, the colour is red for [error], yellow
    for [warn] and cyan for [off], never the default one, and two severities
    are shown with the same text exactly when they get the same colour. *)
Theorem formatSeverity_matches_color :
  forall s s' : RuleSeverity,
    (formatSeverity s = "error" <-> getSeverityColor s = red) /\
    (formatSeverity s = "warn" <-> getSeverityColor s = yellow) /\
    (formatSeverity s = "off" <-> getSeverityColor s = cyan) /\
    (formatSeverity s = "error" \/ formatSeverity s = "warn"
     \/ formatSeverity s = "off") /\
    getSeverityColor s <> reset /\
    (formatSeverity s = formatSeverity s'
     <-> getSeverityColor s = getSeverityColor s').
Proof.
  intros s s'.
  destruct s; repeat split; try discriminate; auto;
    destruct s'; try discriminate; reflexivity.
Qed.

(** ** printSummary *)

(** X7.  The three numbers a summary shows for a configuration add up to its
    total: every rule is counted as an error, a warning or a disabled rule,
    and as one only. *)
Theorem printSummary_counts_add_up :
  forall rules : Map RuleData,
    errorRules rules + warnRules rules + offRules rules = Map_size rules.
Proof.
  intros rules. unfold errorRules, warnRules, offRules, Map_size, Map_values.
  induction rules as [|[k r] rules IH]; simpl; [reflexivity|].
  destruct (severity r); simpl; lia.
Qed.

(** ** More about compareRules *)

(** X8.  The fields of an entry follow its status: an [added] entry has the
    reference severity and options and no local field, a [removed] entry the
    local ones and no reference field, a [different] entry all four, and a
    [same] entry the two severities and no options.  So every severity that
    [printDiff] reads from an entry is there. *)
Theorem compareRules_fields_by_status :
  forall (localeCompare : string -> string -> Z)
         (localRules functypeRules : Map RuleData),
    wellFormedRules localRules = true ->
    wellFormedRules functypeRules = true ->
    exists diffs,
      compareRules localeCompare localRules functypeRules = Normal diffs /\
      forall d, In d diffs ->
        match status d with
        | added =>
            Map_get localRules (name d) = None /\
            localSeverity d = None /\ localOptions d = None /\
            exists f, Map_get functypeRules (name d) = Some f /\
                      functypeSeverity d = Some (severity f) /\
                      functypeOptions d = Some (options f)
        | removed =>
            Map_get functypeRules (name d) = None /\
            functypeSeverity d = None /\ functypeOptions d = None /\
            exists l, Map_get localRules (name d) = Some l /\
                      localSeverity d = Some (severity l) /\
                      localOptions d = Some (options l)
        | different =>
            exists l f,
              Map_get localRules (name d) = Some l /\
              Map_get functypeRules (name d) = Some f /\
              localSeverity d = Some (severity l) /\
              functypeSeverity d = Some (severity f) /\
              localOptions d = Some (options l) /\
              functypeOptions d = Some (options f)
        | same =>
            exists l f,
              Map_get localRules (name d) = Some l /\
              Map_get functypeRules (name d) = Some f /\
              localSeverity d = Some (severity l) /\
              functypeSeverity d = Some (severity f) /\
              localOptions d = None /\ functypeOptions d = None
        end.
Proof.
  intros cmp L F HL HF.
  destruct (compareRules_returns cmp L F HL HF) as [diffs Hrun].
  exists diffs. split; [exact Hrun|]. intros d Hd.
  apply (compareRules_entry_inv cmp L F diffs Hrun) in Hd as [_ Hd].
  remember (name d) as n eqn:Hn.
  round_cases Hd; subst d; simpl in *.
  - eexists _, _. repeat split.
  - eexists _, _. repeat split.
  - repeat split. eexists. repeat split.
  - repeat split. eexists. repeat split.
Qed.

Lemma compareRules_fields_by_status_witness :
  exists diffs,
    compareRules localeCompare_root (extractRules local_project)
      (extractRules (Recommended.asConfig Recommended.recommended))
    = Normal diffs /\
    forall d, In d diffs ->
      match status d with
      | added =>
          Map_get (extractRules local_project) (name d) = None /\
          localSeverity d = None /\ localOptions d = None /\
          exists f,
            Map_get (extractRules (Recommended.asConfig Recommended.recommended))
              (name d) = Some f /\
            functypeSeverity d = Some (severity f) /\
            functypeOptions d = Some (options f)
      | removed =>
          Map_get (extractRules (Recommended.asConfig Recommended.recommended))
            (name d) = None /\
          functypeSeverity d = None /\ functypeOptions d = None /\
          exists l,
            Map_get (extractRules local_project) (name d) = Some l /\
            localSeverity d = Some (severity l) /\
            localOptions d = Some (options l)
      | different =>
          exists l f,
            Map_get (extractRules local_project) (name d) = Some l /\
            Map_get (extractRules (Recommended.asConfig Recommended.recommended))
              (name d) = Some f /\
            localSeverity d = Some (severity l) /\
            functypeSeverity d = Some (severity f) /\
            localOptions d = Some (options l) /\
            functypeOptions d = Some (options f)
      | same =>
          exists l f,
            Map_get (extractRules local_project) (name d) = Some l /\
            Map_get (extractRules (Recommended.asConfig Recommended.recommended))
              (name d) = Some f /\
            localSeverity d = Some (severity l) /\
            functypeSeverity d = Some (severity f) /\
            localOptions d = None /\ functypeOptions d = None
      end.
Proof.
  apply (compareRules_fields_by_status localeCompare_root
           (extractRules local_project)
           (extractRules (Recommended.asConfig Recommended.recommended)));
    reflexivity.
Defined.

(** X9.  A mapping compared with itself gives one [same] entry for each of
    its rules and nothing else. *)
Theorem compareRules_with_itself :
  forall (localeCompare : string -> string -> Z) (rules : Map RuleData),
    wellFormedRules rules = true ->
    exists diffs,
      compareRules localeCompare rules rules = Normal diffs /\
      (forall d, In d diffs -> status d = same) /\
      (forall n, In n (map name diffs) <-> In n (Map_keys rules)) /\
      NoDup (map name diffs).
Proof.
  intros cmp m Hm.
  destruct (compareRules_returns cmp m m Hm Hm) as [diffs Hrun].
  exists diffs. split; [exact Hrun|]. repeat split.
  - intros d Hd.
    apply (compareRules_entry_inv cmp m m diffs Hrun) in Hd as [_ Hd].
    remember (name d) as n eqn:Hn.
    apply compareRule_cases in Hd.
    destruct (Map_get m n) as [r|]; [|discriminate].
    destruct Hd as (lj & fj & Hlj & Hfj & Hd).
    rewrite Hlj in Hfj. injection Hfj as <-.
    assert (Es : RuleSeverity_strictEq (severity r) (severity r) = true)
      by now apply RuleSeverity_strictEq_iff.
    assert (Eo : strictNotEq lj lj = false) by now apply strictNotEq_false_iff.
    rewrite Es, Eo in Hd. simpl in Hd. injection Hd as Hd. now subst d.
  - intros Hn. apply (compareRules_In_names cmp m m diffs Hrun) in Hn.
    destruct Hn; assumption.
  - intros Hn. apply (compareRules_In_names cmp m m diffs Hrun). now left.
  - exact (compareRules_NoDup_names cmp m m diffs Hrun).
Qed.

Lemma compareRules_with_itself_witness :
  exists diffs,
    compareRules localeCompare_root
      (extractRules (Recommended.asConfig Recommended.recommended))
      (extractRules (Recommended.asConfig Recommended.recommended))
    = Normal diffs /\
    (forall d, In d diffs -> status d = same) /\
    (forall n,
        In n (map name diffs)
        <-> In n (Map_keys
                    (extractRules (Recommended.asConfig Recommended.recommended)))) /\
    NoDup (map name diffs).
Proof.
  apply (compareRules_with_itself localeCompare_root
           (extractRules (Recommended.asConfig Recommended.recommended))).
  reflexivity.
Defined.

(** *** When the differ fails *)







(** The failure on the sample with a BigInt option. *)
Example compareRules_bigint_sample :
  compareRules localeCompare_root (extractRules local_bigint)
    (extractRules reference_bigint) = Throw bigIntError.
Proof. reflexivity. Qed.

(** X11.  When no rule name is declared by both mappings, in particular when
    one of them is empty, the differ completes whatever the options hold, and
    every entry is [removed] for a local rule or [added] for a reference
    rule. *)
Theorem compareRules_disjoint :
  forall (localeCompare : string -> string -> Z)
         (localRules functypeRules : Map RuleData),
    (forall n, ~ (In n (Map_keys localRules) /\ In n (Map_keys functypeRules))) ->
    exists diffs,
      compareRules localeCompare localRules functypeRules = Normal diffs /\
      (forall d, In d diffs ->
         (status d = removed /\ In (name d) (Map_keys localRules)) \/
         (status d = added /\ In (name d) (Map_keys functypeRules))) /\
      (forall n, In n (map name diffs)
                 <-> In n (Map_keys localRules) \/ In n (Map_keys functypeRules)).
Proof.
  intros cmp L F Hdisj.
  destruct (compareRules cmp L F) as [diffs|e] eqn:Hrun.
  - exists diffs. split; [reflexivity|]. split.
    + intros d Hd.
      apply (compareRules_entry_inv cmp L F diffs Hrun) in Hd as [_ Hd].
      remember (name d) as n eqn:Hn.
      round_cases Hd; subst d; simpl.
      * exfalso. apply (Hdisj n). split; eapply Map_get_Some_In; eassumption.
      * exfalso. apply (Hdisj n). split; eapply Map_get_Some_In; eassumption.
      * left. split; [reflexivity|]. eapply Map_get_Some_In; eassumption.
      * right. split; [reflexivity|]. eapply Map_get_Some_In; eassumption.
    + intros n. apply (compareRules_In_names cmp L F diffs Hrun).
  - exfalso.
    destruct (compareRules_throws cmp L F e Hrun) as (n & l & f & Hl & Hf & _).
    apply (Hdisj n). split; eapply Map_get_Some_In; eassumption.
Qed.

Lemma compareRules_disjoint_witness :
  exists diffs,
    compareRules localeCompare_root (extractRules local_bigint)
      (extractRules reference_noVar_preferConst) = Normal diffs /\
    (forall d, In d diffs ->
       (status d = removed /\ In (name d) (Map_keys (extractRules local_bigint))) \/
       (status d = added /\
        In (name d) (Map_keys (extractRules reference_noVar_preferConst)))) /\
    (forall n, In n (map name diffs)
               <-> In n (Map_keys (extractRules local_bigint))
                   \/ In n (Map_keys (extractRules reference_noVar_preferConst))).
Proof.
  apply (compareRules_disjoint localeCompare_root (extractRules local_bigint)
           (extractRules reference_noVar_preferConst)).
  intros n [Hl Hf]. simpl in Hl, Hf.
  destruct Hl as [<-|[<-|[]]]; destruct Hf as [Hf|[Hf|[]]]; discriminate Hf.
Defined.

(** *** The order in which the rules were declared *)





Lemma extractRules_NoDup (config : Config) :
  NoDup (Map_keys (extractRules config)).
Proof. rewrite extractRules_keys_eq. apply Set_from_NoDup. Qed.



(** ** printDiff *)

Lemma filter_length_Permutation {A : Type} (f : A -> bool) (l l' : list A) :
  Permutation l l' -> List.length (filter f l) = List.length (filter f l').
Proof.
  induction 1 as [|x l l' _ IH|x y l|l l' l'' _ IH _ IH']; simpl.
  - reflexivity.
  - destruct (f x); simpl; congruence.
  - destruct (f x), (f y); reflexivity.
  - congruence.
Qed.

Lemma filter_length_map {A B : Type} (g : A -> B) (p : A -> bool) (q : B -> bool)
  (l : list A) :
  (forall x, In x l -> p x = q (g x)) ->
  List.length (filter p l) = List.length (filter q (map g l)).
Proof.
  induction l as [|x l IH]; intros H; simpl; [reflexivity|].
  rewrite <- (H x (or_introl eq_refl)).
  destruct (p x); simpl; rewrite IH; auto; intros y Hy; apply H; now right.
Qed.

Lemma categories_partition (diffs : list RuleDiff) :
  List.length (categories_same diffs) + List.length (categories_added diffs)
  + List.length (categories_different diffs)
  + List.length (categories_removed diffs)
  = List.length diffs.
Proof.
  unfold categories_same, categories_added, categories_different,
    categories_removed.
  induction diffs as [|d diffs IH]; simpl; [reflexivity|].
  destruct (status d); simpl; lia.
Qed.

Lemma filter_length_or {A : Type} (f g : A -> bool) (l : list A) :
  (forall x, In x l -> f x && g x = false) ->
  List.length (filter f l) + List.length (filter g l)
  = List.length (filter (fun x => f x || g x) l).
Proof.
  induction l as [|x l IH]; intros H; simpl; [reflexivity|].
  pose proof (H x (or_introl eq_refl)) as Hx.
  assert (IH' := IH (fun y Hy => H y (or_intror Hy))).
  destruct (f x), (g x); simpl in *; try discriminate; lia.
Qed.

Lemma Map_has_true_iff {V : Type} (m : Map V) (n : string) :
  Map_has m n = true <-> In n (Map_keys m).
Proof. apply Set_has_true_iff. Qed.

Lemma Map_has_get {V : Type} (m : Map V) (n : string) :
  Map_has m n = match Map_get m n with Some _ => true | None => false end.
Proof.
  destruct (Map_get m n) as [v|] eqn:E.
  - apply Map_has_true_iff. now apply Map_get_Some_In in E.
  - apply Map_get_None_iff in E.
    destruct (Map_has m n) eqn:H; [|reflexivity].
    apply Map_has_true_iff in H. contradiction.
Qed.

(** X13.  The numbers of the migration summary count the rule names of the
    two mappings: the rules to remove and the conflicts together are the
    names both mappings declare, the new rules are the names only the
    reference declares, the additional rules are the names only the local
    mapping declares, and the four numbers add up to the number of distinct
    names. *)
Theorem printDiff_counts :
  forall (localeCompare : string -> string -> Z)
         (localRules functypeRules : Map RuleData),
    wellFormedRules localRules = true ->
    wellFormedRules functypeRules = true ->
    exists diffs,
      compareRules localeCompare localRules functypeRules = Normal diffs /\
      List.length (categories_same diffs)
      + List.length (categories_different diffs)
      = List.length
          (filter (fun n => Map_has localRules n && Map_has functypeRules n)
             (Set_from (Map_keys localRules ++ Map_keys functypeRules))) /\
      List.length (categories_added diffs)
      = List.length
          (filter (fun n => negb (Map_has localRules n))
             (Set_from (Map_keys localRules ++ Map_keys functypeRules))) /\
      List.length (categories_removed diffs)
      = List.length
          (filter (fun n => negb (Map_has functypeRules n))
             (Set_from (Map_keys localRules ++ Map_keys functypeRules))) /\
      List.length (categories_same diffs) + List.length (categories_added diffs)
      + List.length (categories_different diffs)
      + List.length (categories_removed diffs)
      = List.length (Set_from (Map_keys localRules ++ Map_keys functypeRules)).
Proof.
  intros cmp L F HL HF.
  destruct (compareRules_returns cmp L F HL HF) as [diffs Hrun].
  exists diffs. split; [exact Hrun|].
  pose proof (compareRules_names cmp L F diffs Hrun) as Hperm.
  assert (Hst : forall d, In d diffs ->
            match status d with
            | added => Map_has L (name d) = false /\ Map_has F (name d) = true
            | removed => Map_has L (name d) = true /\ Map_has F (name d) = false
            | _ => Map_has L (name d) = true /\ Map_has F (name d) = true
            end).
  { intros d Hd.
    apply (compareRules_entry_inv cmp L F diffs Hrun) in Hd as [_ Hd].
    remember (name d) as n eqn:Hn. rewrite !Map_has_get.
    round_cases Hd; subst d; simpl; now split. }
  repeat split.
  - unfold categories_same, categories_different.
    rewrite filter_length_or by (intros d _; now destruct (status d)).
    rewrite <- (filter_length_Permutation _ _ _ Hperm).
    apply filter_length_map. intros d Hd. specialize (Hst d Hd).
    destruct (status d); destruct Hst as [HLn HFn];
      rewrite ?HLn, ?HFn; reflexivity.
  - unfold categories_added.
    rewrite <- (filter_length_Permutation _ _ _ Hperm).
    apply filter_length_map. intros d Hd. specialize (Hst d Hd).
    destruct (status d); destruct Hst as [HLn HFn];
      rewrite ?HLn, ?HFn; reflexivity.
  - unfold categories_removed.
    rewrite <- (filter_length_Permutation _ _ _ Hperm).
    apply filter_length_map. intros d Hd. specialize (Hst d Hd).
    destruct (status d); destruct Hst as [HLn HFn];
      rewrite ?HLn, ?HFn; reflexivity.
  - rewrite categories_partition.
    rewrite <- (Permutation_length Hperm). now rewrite length_map.
Qed.

Lemma printDiff_counts_witness :
  exists diffs,
    compareRules localeCompare_root (extractRules local_project)
      (extractRules (Recommended.asConfig Recommended.recommended))
    = Normal diffs /\
    List.length (categories_same diffs)
    + List.length (categories_different diffs)
    = List.length
        (filter
           (fun n =>
              Map_has (extractRules local_project) n
              && Map_has
                   (extractRules (Recommended.asConfig Recommended.recommended)) n)
           (Set_from
              (Map_keys (extractRules local_project)
               ++ Map_keys
                    (extractRules (Recommended.asConfig Recommended.recommended))))) /\
    List.length (categories_added diffs)
    = List.length
        (filter (fun n => negb (Map_has (extractRules local_project) n))
           (Set_from
              (Map_keys (extractRules local_project)
               ++ Map_keys
                    (extractRules (Recommended.asConfig Recommended.recommended))))) /\
    List.length (categories_removed diffs)
    = List.length
        (filter
           (fun n =>
              negb (Map_has
                      (extractRules (Recommended.asConfig Recommended.recommended))
                      n))
           (Set_from
              (Map_keys (extractRules local_project)
               ++ Map_keys
                    (extractRules (Recommended.asConfig Recommended.recommended))))) /\
    List.length (categories_same diffs) + List.length (categories_added diffs)
    + List.length (categories_different diffs)
    + List.length (categories_removed diffs)
    = List.length
        (Set_from
           (Map_keys (extractRules local_project)
            ++ Map_keys
                 (extractRules (Recommended.asConfig Recommended.recommended)))).
Proof.
  apply (printDiff_counts localeCompare_root (extractRules local_project)
           (extractRules (Recommended.asConfig Recommended.recommended)));
    reflexivity.
Defined.

Lemma nonEmpty_filter_iff {A : Type} (f : A -> bool) (l : list A) :
  nonEmpty (filter f l) = true <-> exists x, In x l /\ f x = true.
Proof.
  unfold nonEmpty. split.
  - destruct (filter f l) as [|x t] eqn:E; [discriminate|]. intros _.
    exists x. apply filter_In. rewrite E. now left.
  - intros (x & Hx & Hf).
    assert (Hin : In x (filter f l)) by (apply filter_In; now split).
    destruct (filter f l); [contradiction | reflexivity].
Qed.

Lemma console_log_Forall (P : string -> Prop) (console : list string) (m : string) :
  Forall P console -> P m -> Forall P (console_log console m).
Proof.
  intros Hc Hm. unfold console_log. apply Forall_app. split; [assumption|].
  now constructor.
Qed.

Lemma fold_left_Forall {A : Type} (P : string -> Prop)
  (f : list string -> A -> list string) (l : list A) (console : list string) :
  (forall c d, Forall P c -> Forall P (f c d)) ->
  Forall P console -> Forall P (fold_left f l console).
Proof.
  intros Hf. revert console. induction l as [|d l IH]; intros console Hc; simpl.
  - exact Hc.
  - apply IH. now apply Hf.
Qed.

(** No line but the last of the suggested steps starts with [3]. *)
Ltac other_line :=
  let E := fresh "E" in
  cbv beta; intros E; unfold lastMigrationStep, colorize, colors, LF, ESC in E;
  simpl in E; discriminate E.

Ltac no_advice :=
  lazymatch goal with
  | |- Forall _ (console_log _ _) =>
      apply console_log_Forall; [no_advice | other_line]
  | |- Forall _ (fold_left _ _ _) =>
      apply fold_left_Forall;
      [ let Hc := fresh "Hc" in
        intros ? ? Hc; unfold printAdded, printRemoved;
        apply console_log_Forall; [exact Hc | other_line]
      | no_advice ]
  | |- Forall _ (if ?b then _ else _) => destruct b; no_advice
  | |- Forall _ [] => constructor
  end.

(** X14.  The report ends with the advice to add the functype configuration
    exactly when some rule is classified [same] or [different]; a diff of
    [added] and [removed] rules only gets the summary and no advice. *)
Theorem printDiff_advice :
  forall (diffs : list RuleDiff) (functypeConfigName : string),
    In lastMigrationStep (printDiff diffs functypeConfigName [])
    <-> exists d, In d diffs /\ (status d = same \/ status d = different).
Proof.
  intros diffs cfg.
  assert (Hs : nonEmpty (categories_same diffs) = true
               <-> exists d, In d diffs /\ status d = same).
  { unfold categories_same. rewrite nonEmpty_filter_iff.
    split; intros (d & Hd & H); exists d; split; try assumption;
      destruct (status d); try discriminate; reflexivity. }
  assert (Hd : nonEmpty (categories_different diffs) = true
               <-> exists d, In d diffs /\ status d = different).
  { unfold categories_different. rewrite nonEmpty_filter_iff.
    split; intros (d & Hd & H); exists d; split; try assumption;
      destruct (status d); try discriminate; reflexivity. }
  unfold printDiff.
  destruct (nonEmpty (categories_same diffs)) eqn:Es;
    destruct (nonEmpty (categories_different diffs)) eqn:Ed; cbn [orb].
  - split.
    + intros _. destruct (proj1 Hs eq_refl) as (d & Hin & H).
      exists d. split; [assumption | now left].
    + intros _. apply in_or_app. right. now left.
  - split.
    + intros _. destruct (proj1 Hs eq_refl) as (d & Hin & H).
      exists d. split; [assumption | now left].
    + intros _. apply in_or_app. right. now left.
  - split.
    + intros _. destruct (proj1 Hd eq_refl) as (d & Hin & H).
      exists d. split; [assumption | now right].
    + intros _. apply in_or_app. right. now left.
  - split.
    + intros Hin. exfalso.
      match type of Hin with
      | In _ ?out =>
          assert (Hall : Forall (fun line => line <> lastMigrationStep) out)
            by no_advice
      end.
      rewrite Forall_forall in Hall. now apply (Hall _ Hin).
    + intros (d & Hin & [H|H]).
      * assert (false = true) by (apply Hs; now exists d).
        discriminate.
      * assert (false = true) by (apply Hd; now exists d).
        discriminate.
Qed.

(** *** One line for each entry *)

Lemma bulletLines_console_log (console : list string) (m : string) :
  bulletLines (console_log console m)
  = bulletLines console + (if prefix bulletPrefix m then 1 else 0).
Proof.
  unfold bulletLines, console_log. rewrite filter_app, length_app. simpl.
  now destruct (prefix bulletPrefix m).
Qed.

Lemma bulletLines_fold {A : Type} (f : list string -> A -> list string)
  (l : list A) (console : list string) :
  (forall c d, bulletLines (f c d) = bulletLines c + 1) ->
  bulletLines (fold_left f l console) = bulletLines console + List.length l.
Proof.
  intros Hf. revert console. induction l as [|d l IH]; intros console; simpl.
  - lia.
  - rewrite IH, Hf. lia.
Qed.

Lemma nonEmpty_false {A : Type} (l : list A) :
  nonEmpty l = false -> List.length l = 0.
Proof. destruct l; [reflexivity | discriminate]. Qed.

Lemma summary_line_no_bullet (n : nat) (rest : string) :
  prefix bulletPrefix ("  " ++ String_of_length n ++ rest) = false.
Proof.
  unfold String_of_length, Number_toString.
  destruct (Z.to_int (Z.of_nat n)) as [d|d]; destruct d; reflexivity.
Qed.

Lemma bullet_line (rest : string) :
  (if prefix bulletPrefix (bulletPrefix ++ rest) then 1 else 0) = 1.
Proof.
  assert (H : prefix bulletPrefix (bulletPrefix ++ rest) = true)
    by (apply prefix_iff_append; now exists rest).
  now rewrite H.
Qed.

(** X15.  The report lists every entry of the diff on one line of its own:
    starting on an empty console, the lines that start with the bullet are
    as many as the entries. *)
Theorem printDiff_one_line_per_entry :
  forall (diffs : list RuleDiff) (functypeConfigName : string),
    bulletLines (printDiff diffs functypeConfigName []) = List.length diffs.
Proof.
  intros diffs cfg. rewrite <- (categories_partition diffs).
  assert (Hsame : forall c d, bulletLines (printSame c d) = bulletLines c + 1).
  { intros c d. unfold printSame. rewrite bulletLines_console_log.
    f_equal. apply bullet_line. }
  assert (Hadded : forall c d, bulletLines (printAdded c d) = bulletLines c + 1).
  { intros c d. unfold printAdded. rewrite bulletLines_console_log.
    f_equal. apply bullet_line. }
  assert (Hdiff : forall c d, bulletLines (printDifferent c d) = bulletLines c + 1).
  { intros c d. unfold printDifferent. rewrite !bulletLines_console_log.
    rewrite (bullet_line (name d)
             : (if prefix bulletPrefix ("  ‚Ä¢ " ++ name d) then 1 else 0) = 1).
    simpl. lia. }
  assert (Hrem : forall c d, bulletLines (printRemoved c d) = bulletLines c + 1).
  { intros c d. unfold printRemoved. rewrite bulletLines_console_log.
    f_equal. apply bullet_line. }
  unfold printDiff.
  destruct (nonEmpty (categories_same diffs)) eqn:Es;
    destruct (nonEmpty (categories_added diffs)) eqn:Ea;
    destruct (nonEmpty (categories_different diffs)) eqn:Ed;
    destruct (nonEmpty (categories_removed diffs)) eqn:Er;
    cbn [orb];
    try rewrite (nonEmpty_false _ Es); try rewrite (nonEmpty_false _ Ea);
    try rewrite (nonEmpty_false _ Ed); try rewrite (nonEmpty_false _ Er);
    repeat first
      [ rewrite bulletLines_console_log
      | rewrite summary_line_no_bullet
      | rewrite (bulletLines_fold printSame) by exact Hsame
      | rewrite (bulletLines_fold printAdded) by exact Hadded
      | rewrite (bulletLines_fold printDifferent) by exact Hdiff
      | rewrite (bulletLines_fold printRemoved) by exact Hrem ];
    simpl; lia.
Qed.

(** ** printRules *)

Section GroupingFacts.
Context {V : Type}.

Lemma Map_set_set (m : Map V) (key : string) (v v' : V) :
  Map_set (Map_set m key v) key v' = Map_set m key v'.
Proof.
  induction m as [|[k w] m IH]; simpl.
  - now rewrite String.eqb_refl.
  - destruct (k =? key)%string eqn:E; simpl; rewrite E; [reflexivity|].
    now rewrite IH.
Qed.

Lemma Map_get_tabulate (g : string -> V) (keys : list string) (key : string) :
  In key keys ->
  Map_get (map (fun s => (s, g s)) keys) key = Some (g key).
Proof.
  induction keys as [|k keys IH]; simpl; [tauto|].
  destruct (String.eqb_spec k key) as [->|Hne]; [reflexivity|].
  intros [H|H]; [contradiction | now apply IH].
Qed.

Lemma Map_keys_tabulate (g : string -> V) (keys : list string) :
  Map_keys (map (fun s => (s, g s)) keys) = keys.
Proof.
  unfold Map_keys. rewrite map_map. simpl. apply map_id.
Qed.

(** Overwriting one key of a table with distinct keys. *)
Lemma Map_set_tabulate (g : string -> V) (keys : list string) (key : string) (v : V) :
  NoDup keys -> In key keys ->
  Map_set (map (fun s => (s, g s)) keys) key v
  = map (fun s => (s, if (s =? key)%string then v else g s)) keys.
Proof.
  induction keys as [|k keys IH]; simpl; [tauto|].
  intros Hnd Hin. inversion Hnd as [|? ? Hk Hnd']; subst.
  destruct (String.eqb_spec k key) as [->|Hne].
  - f_equal. apply map_ext_in. intros s Hs.
    destruct (String.eqb_spec s key) as [->|_]; [contradiction | reflexivity].
  - destruct Hin as [H|H]; [contradiction|]. f_equal. now apply IH.
Qed.
End GroupingFacts.

Lemma Set_from_snoc (l : list string) (x : string) :
  Set_from (l ++ [x]) = Set_add (Set_from l) x.
Proof. unfold Set_from. now rewrite fold_left_app. Qed.

Lemma fromSource_keys (s : string) (rules : Map RuleData) (k : string) :
  In k (Map_keys (filter (fromSource s) rules)) -> In k (Map_keys rules).
Proof.
  unfold Map_keys. rewrite !in_map_iff.
  intros (e & He & Hin). exists e. split; [assumption|].
  now apply filter_In in Hin.
Qed.

Lemma fromSource_absent (s : string) (rules : Map RuleData) :
  ~ In s (map (fun entry => source (snd entry)) rules) ->
  filter (fromSource s) rules = [].
Proof.
  induction rules as [|e rules IH]; simpl; [reflexivity|].
  intros H. unfold fromSource at 1.
  destruct (String.eqb_spec (source (snd e)) s) as [Heq|Hne]; [tauto|].
  apply IH. tauto.
Qed.

(** The groups [printRules] forms, written out. *)
Lemma groupBySource_eq (rules : Map RuleData) :
  NoDup (Map_keys rules) ->
  groupBySource rules
  = map (fun s => (s, filter (fromSource s) rules)) (sourcesOf rules).
Proof.
  unfold groupBySource, sourcesOf.
  induction rules as [|[k0 r0] rules IH] using rev_ind; [reflexivity|].
  intros Hnd. unfold Map_keys in Hnd. rewrite map_app in Hnd. simpl in Hnd.
  assert (Hk0 : ~ In k0 (Map_keys rules)).
  { apply NoDup_remove_2 in Hnd. now rewrite app_nil_r in Hnd. }
  assert (Hnd' : NoDup (Map_keys rules)).
  { apply NoDup_remove_1 in Hnd. now rewrite app_nil_r in Hnd. }
  rewrite fold_left_app. simpl. rewrite (IH Hnd'). clear IH.
  rewrite map_app. simpl. rewrite Set_from_snoc.
  set (srcs := Set_from (map (fun entry => source (snd entry)) rules)).
  set (s0 := source r0).
  assert (Hsrcs : NoDup srcs) by apply Set_from_NoDup.
  assert (Hfilter : forall s,
             filter (fromSource s) (rules ++ [(k0, r0)])
             = (filter (fromSource s) rules
                ++ (if (s0 =? s)%string then [(k0, r0)] else []))%list).
  { intros s. rewrite filter_app. simpl. unfold fromSource at 2. simpl.
    fold s0. now destruct (s0 =? s)%string. }
  unfold groupRule. fold s0.
  unfold Map_has. rewrite Map_keys_tabulate.
  unfold Set_add, Set_has.
  destruct (existsb (String.eqb s0) srcs) eqn:Ehas; cbn [negb].
  - assert (Hin : In s0 srcs) by now apply Set_has_true_iff.
    rewrite Map_get_tabulate by assumption.
    rewrite Map_set_tabulate by assumption.
    apply map_ext_in. intros s Hs. f_equal. rewrite Hfilter.
    rewrite (String.eqb_sym s0 s).
    destruct (String.eqb_spec s s0) as [->|Hne].
    + apply Map_set_fresh. intros Hk. apply Hk0.
      now apply (fromSource_keys s0).
    + now rewrite app_nil_r.
  - assert (Hnin : ~ In s0 srcs).
    { intros Hin. apply Set_has_true_iff in Hin. unfold Set_has in Hin.
      congruence. }
    rewrite Map_get_set_same. rewrite Map_set_set.
    rewrite Map_set_fresh by now rewrite Map_keys_tabulate.
    rewrite map_app. simpl. f_equal.
    + apply map_ext_in. intros s Hs. f_equal. rewrite Hfilter.
      destruct (String.eqb_spec s0 s) as [<-|Hne]; [contradiction|].
      now rewrite app_nil_r.
    + rewrite Hfilter, String.eqb_refl.
      rewrite fromSource_absent; [reflexivity|].
      intros Hin. apply Hnin. now apply Set_from_In.
Qed.

(** X16.  [printRules] shows the rules in one group for each source: the
    groups are the sources of the mapping, each once and in the order of
    their first rule, and the group of a source holds the rules of that
    source, all of them, in the order of the mapping. *)
Theorem printRules_groups :
  forall rules : Map RuleData,
    NoDup (Map_keys rules) ->
    groupBySource rules
    = map (fun s => (s, filter (fromSource s) rules)) (sourcesOf rules).
Proof. exact groupBySource_eq. Qed.

Lemma printRules_groups_witness :
  groupBySource (extractRules local_project)
  = map (fun s => (s, filter (fromSource s) (extractRules local_project)))
      (sourcesOf (extractRules local_project)).
Proof.
  apply (printRules_groups (extractRules local_project)).
  apply extractRules_NoDup.
Defined.

(** *** When printRules fails *)







(** The short option [-v] that the help text names is not looked for: with
    it the options are not shown and nothing fails. *)
Example printRules_short_option :
  printRules ["node"; "list-rules.js"; "-v"] "Local"
    (extractRules local_bigint) []
  = printRules ["node"; "list-rules.js"] "Local" (extractRules local_bigint) [] /\
  fst (printRules ["node"; "list-rules.js"; "-v"] "Local"
         (extractRules local_bigint) [])
  = Normal tt /\
  fst (printRules ["node"; "list-rules.js"; "--verbose"] "Local"
         (extractRules local_bigint) [])
  = Throw bigIntError.
Proof. repeat split. Qed.

(** *** The short name of a rule *)

Lemma afterLastSlash_None_iff (s : string) :
  noLineTerminator s = true ->
  afterLastSlash s = None <-> noSlash s = true.
Proof.
  induction s as [|c s IH]; [intros _; split; reflexivity|].
  cbn [noLineTerminator afterLastSlash noSlash]. intros H.
  apply andb_true_iff in H as [Hlt Hs]. apply negb_true_iff in Hlt.
  rewrite Hlt. specialize (IH Hs).
  destruct (afterLastSlash s) as [r|].
  - split; [discriminate|]. intros H. apply andb_true_iff in H as [_ H].
    apply IH in H. discriminate.
  - rewrite (proj1 IH eq_refl), andb_true_r.
    destruct (nat_of_ascii c =? 47)%nat; split; try discriminate; reflexivity.
Qed.

Lemma afterLastSlash_Some (s rest : string) :
  noLineTerminator s = true ->
  afterLastSlash s = Some rest ->
  noSlash rest = true /\ exists pre, s = pre ++ "/" ++ rest.
Proof.
  revert rest. induction s as [|c s IH]; intros rest; [discriminate|].
  cbn [noLineTerminator afterLastSlash]. intros H.
  apply andb_true_iff in H as [Hlt Hs]. apply negb_true_iff in Hlt.
  rewrite Hlt.
  destruct (afterLastSlash s) as [r|] eqn:E.
  - intros [= <-]. destruct (IH r Hs eq_refl) as [Hr [pre ->]].
    split; [assumption|]. now exists (String c pre).
  - destruct (Nat.eqb_spec (nat_of_ascii c) 47) as [Hc|Hc]; [|discriminate].
    intros [= <-]. split; [now apply afterLastSlash_None_iff|].
    exists "". simpl. f_equal.
    rewrite <- (ascii_nat_embedding c), Hc. reflexivity.
Qed.

Lemma noLineTerminator_tail (c : ascii) (s : string) :
  noLineTerminator (String c s) = true ->
  startsWithLineTerminator (String c s) = false /\ noLineTerminator s = true.
Proof.
  cbn [noLineTerminator]. intros H. apply andb_true_iff in H as [Hlt Hs].
  now apply negb_true_iff in Hlt.
Qed.

Lemma afterLastSlash_last (pre rest : string) :
  noLineTerminator (pre ++ "/" ++ rest) = true ->
  noSlash rest = true ->
  afterLastSlash (pre ++ "/" ++ rest) = Some rest.
Proof.
  intros Hlt Hrest. induction pre as [|c pre IH].
  - change ("" ++ "/" ++ rest) with (String "/" rest) in *.
    apply noLineTerminator_tail in Hlt as [Hlt Hs].
    cbn [afterLastSlash]. rewrite Hlt.
    now rewrite (proj2 (afterLastSlash_None_iff rest Hs) Hrest).
  - change (String c pre ++ "/" ++ rest)
      with (String c (pre ++ "/" ++ rest)) in *.
    apply noLineTerminator_tail in Hlt as [Hlt Hs].
    cbn [afterLastSlash]. rewrite Hlt. now rewrite (IH Hs).
Qed.

(** X18.  For a rule name without a line terminator, the short name that
    [printRules] shows is the end of the name after its last slash: it has no
    slash, the name ends with it, and a name without a slash is shown
    whole. *)
Theorem shortName_after_last_slash :
  forall ruleName : string,
    noLineTerminator ruleName = true ->
    noSlash (shortName ruleName) = true /\
    (exists pre, ruleName = pre ++ shortName ruleName) /\
    (noSlash ruleName = true -> shortName ruleName = ruleName) /\
    (forall pre rest,
        ruleName = pre ++ "/" ++ rest -> noSlash rest = true ->
        shortName ruleName = rest).
Proof.
  intros n Hlt. unfold shortName.
  destruct (afterLastSlash n) as [rest|] eqn:E.
  - destruct (afterLastSlash_Some n rest Hlt E) as [Hrest [pre Hpre]].
    repeat split.
    + exact Hrest.
    + exists (pre ++ "/"). rewrite Hpre.
      clear. induction pre as [|c pre IH]; [reflexivity|].
      change (String c (pre ++ "/" ++ rest) = String c ((pre ++ "/") ++ rest)).
      now f_equal.
    + intros Hn. apply (afterLastSlash_None_iff n Hlt) in Hn. congruence.
    + intros pre' rest' Hn Hrest'. rewrite Hn in Hlt, E.
      rewrite (afterLastSlash_last pre' rest' Hlt Hrest') in E. congruence.
  - repeat split.
    + now apply afterLastSlash_None_iff.
    + now exists "".
    + intros pre rest Hn Hrest. subst n.
      rewrite (afterLastSlash_last pre rest Hlt Hrest) in E. discriminate.
Qed.

Lemma shortName_after_last_slash_witness :
  noSlash (shortName "@typescript-eslint/no-unused-vars") = true /\
  (exists pre,
      "@typescript-eslint/no-unused-vars"
      = pre ++ shortName "@typescript-eslint/no-unused-vars") /\
  (noSlash "@typescript-eslint/no-unused-vars" = true ->
   shortName "@typescript-eslint/no-unused-vars"
   = "@typescript-eslint/no-unused-vars") /\
  (forall pre rest,
      "@typescript-eslint/no-unused-vars" = pre ++ "/" ++ rest ->
      noSlash rest = true ->
      shortName "@typescript-eslint/no-unused-vars" = rest).
Proof.
  apply (shortName_after_last_slash "@typescript-eslint/no-unused-vars").
  reflexivity.
Defined.

(** A line terminator ahead of the slash stops the match: the name is shown
    whole. *)
Example shortName_line_terminator :
  shortName ("plugin" ++ LF ++ "x/rule") = "plugin" ++ LF ++ "x/rule" /\
  shortName "functional/no-let" = "no-let" /\
  shortName "@scope/plugin/rule" = "rule".
Proof. repeat split. Qed.

(** ** loadLocalESLintConfig *)









(** The merge of the sample array: [no-var] keeps its place and takes the
    later declaration. *)
Example mergeFlatConfig_sample :
  extractRules (mergeFlatConfig sample_flatConfig)
  = [ ("no-var", {| severity := S_error; options := []; source := "eslint (core)" |});
      ("eqeqeq", {| severity := S_error; options := []; source := "eslint (core)" |});
      ("prefer-const",
        {| severity := S_error; options := []; source := "eslint (core)" |}) ].
Proof. reflexivity. Qed.

(** X20.  Without a path, the configuration file is the first of the five
    candidate names that exists, so a flat configuration file is preferred to
    a legacy one, and there is no file only when none of the five exists; a
    path that is given is taken as it is, without a look at the file
    system. *)
Theorem actualPath_first_existing :
  forall (existsSync : string -> bool) (configPath : string),
    (actualPath existsSync "" = None
     <-> forall name, In name possibleConfigs -> existsSync name = false) /\
    (forall name,
        actualPath existsSync "" = Some name
        <-> exists before after,
              possibleConfigs = (before ++ name :: after)%list /\
              existsSync name = true /\
              forall earlier, In earlier before -> existsSync earlier = false) /\
    (configPath <> "" -> actualPath existsSync configPath = Some configPath).
Proof.
  intros existsSync configPath.
  assert (Hfind : forall (l : list string) name,
             find existsSync l = Some name
             <-> exists before after,
                   l = (before ++ name :: after)%list /\
                   existsSync name = true /\
                   forall earlier, In earlier before -> existsSync earlier = false).
  { induction l as [|x l IH]; intros name; simpl.
    - split; [discriminate|]. intros (before & after & H & _).
      destruct before; discriminate.
    - destruct (existsSync x) eqn:Ex.
      + split.
        * intros [= <-]. exists [], l. repeat split; [assumption|]. intros ? [].
        * intros (before & after & H & Hname & Hbefore).
          destruct before as [|b before]; simpl in H.
          -- now injection H as -> _.
          -- injection H as -> _.
             rewrite (Hbefore b (or_introl eq_refl)) in Ex. discriminate.
      + rewrite IH. split.
        * intros (before & after & -> & Hname & Hbefore).
          exists (x :: before), after. repeat split; [assumption|].
          intros earlier [<-|H]; [assumption | now apply Hbefore].
        * intros (before & after & H & Hname & Hbefore).
          destruct before as [|b before]; simpl in H.
          -- injection H as -> _. congruence.
          -- injection H as -> ->. exists before, after.
             repeat split; [assumption|].
             intros earlier He. apply Hbefore. now right. }
  split; [|split].
  - unfold actualPath. split.
    + intros H name Hin. now apply (find_none _ _ H).
    + intros H. destruct (find existsSync possibleConfigs) as [name|] eqn:E;
        [|reflexivity].
      apply find_some in E as [Hin Hex]. rewrite (H name Hin) in Hex.
      discriminate.
  - intros name. unfold actualPath. apply Hfind.
  - intros Hne. destruct configPath; [contradiction | reflexivity].
Qed.

Lemma actualPath_first_existing_witness :
  (actualPath (fun name => (name =? ".eslintrc.js")%string) "" = None
   <-> forall name, In name possibleConfigs ->
                    (name =? ".eslintrc.js")%string = false) /\
  (forall name,
      actualPath (fun name => (name =? ".eslintrc.js")%string) "" = Some name
      <-> exists before after,
            possibleConfigs = (before ++ name :: after)%list /\
            (name =? ".eslintrc.js")%string = true /\
            forall earlier, In earlier before ->
                            (earlier =? ".eslintrc.js")%string = false) /\
  ("config/eslint.config.js" <> "" ->
   actualPath (fun name => (name =? ".eslintrc.js")%string)
     "config/eslint.config.js"
   = Some "config/eslint.config.js").
Proof.
  exact (actualPath_first_existing
           (fun name => (name =? ".eslintrc.js")%string)
           "config/eslint.config.js").
Defined.

(** ** main *)

Lemma Array_includes_iff (args : list string) (x : string) :
  Array_includes args x = true <-> In x args.
Proof. apply Set_has_true_iff. Qed.

Lemma Array_findIndex_nonneg_or_minus1 {A : Type} (p : A -> bool) (l : list A) :
  (Array_findIndex p l = -1 \/ 0 <= Array_findIndex p l)%Z.
Proof.
  induction l as [|x l IH]; simpl; [now left|].
  destruct (p x); [right; lia|].
  destruct (Z.ltb_spec (Array_findIndex p l) 0); [now left | right; lia].
Qed.

Lemma Array_findIndex_first {A : Type} (p : A -> bool) (pre : list A) (x : A)
  (post : list A) :
  (forall y, In y pre -> p y = false) -> p x = true ->
  Array_findIndex p (pre ++ x :: post) = Z.of_nat (List.length pre).
Proof.
  intros Hpre Hx. induction pre as [|y pre IH]; simpl.
  - now rewrite Hx.
  - rewrite (Hpre y (or_introl eq_refl)).
    rewrite IH by (intros z Hz; apply Hpre; now right).
    destruct (Z.ltb_spec (Z.of_nat (List.length pre)) 0); lia.
Qed.

Lemma diffConfigIndex_first (pre post : list string) :
  ~ In "--diff" pre ->
  diffConfigIndex (pre ++ "--diff" :: post) = Z.of_nat (List.length pre).
Proof.
  intros Hpre. unfold diffConfigIndex. apply Array_findIndex_first.
  - intros y Hy. apply String.eqb_neq. intros ->. contradiction.
  - reflexivity.
Qed.

(** X21.  In diff mode the configuration path is the argument that follows
    the first [--diff], whatever it is, another option included, and it is
    empty (automatic search) when [--diff] comes last; the diff runs even
    when a dependency check is asked for too, unless help is asked for. *)
Theorem main_diff_path :
  forall (pre post : list string) (next : string),
    ~ In "--diff" pre ->
    showHelp (pre ++ "--diff" :: next :: post) = false ->
    main_action (pre ++ "--diff" :: next :: post) = RunDiffMode next /\
    main_action (pre ++ ["--diff"]) = RunDiffMode "".
Proof.
  intros pre post next Hpre Hhelp.
  assert (Hhelp' : showHelp (pre ++ ["--diff"]) = false).
  { unfold showHelp in *. apply orb_false_iff in Hhelp as [H1 H2].
    assert (Hsub : forall x, Array_includes (pre ++ "--diff" :: next :: post) x = false
                             -> Array_includes (pre ++ ["--diff"]) x = false).
    { intros x Hx. destruct (Array_includes (pre ++ ["--diff"]) x) eqn:E;
        [|reflexivity].
      apply Array_includes_iff, in_app_or in E.
      assert (Hin : In x (pre ++ "--diff" :: next :: post)).
      { apply in_or_app. destruct E as [E|[<-|[]]]; [now left | right; now left]. }
      apply Array_includes_iff in Hin. congruence. }
    now rewrite (Hsub _ H1), (Hsub _ H2). }
  unfold main_action. rewrite Hhelp, Hhelp'.
  assert (Hmode : forall rest, diffMode (pre ++ "--diff" :: rest) = true).
  { intros rest. apply Array_includes_iff, in_or_app. right. now left. }
  rewrite !Hmode. split; f_equal; unfold diffConfigPath;
    rewrite diffConfigIndex_first by assumption.
  - assert (Hidx : (Z.of_nat (List.length pre) =? -1)%Z = false)
      by (apply Z.eqb_neq; lia).
    rewrite Hidx. cbn [negb]. unfold Array_at.
    assert (Hlt : (Z.of_nat (List.length pre) + 1 <? 0)%Z = false)
      by (apply Z.ltb_ge; lia).
    rewrite Hlt.
    replace (Z.to_nat (Z.of_nat (List.length pre) + 1))
      with (List.length pre + 1)%nat by lia.
    rewrite nth_error_app2 by lia.
    replace (List.length pre + 1 - List.length pre)%nat with 1%nat by lia.
    simpl. now destruct next.
  - assert (Hidx : (Z.of_nat (List.length pre) =? -1)%Z = false)
      by (apply Z.eqb_neq; lia).
    rewrite Hidx. cbn [negb]. unfold Array_at.
    assert (Hlt : (Z.of_nat (List.length pre) + 1 <? 0)%Z = false)
      by (apply Z.ltb_ge; lia).
    rewrite Hlt.
    replace (Z.to_nat (Z.of_nat (List.length pre) + 1))
      with (List.length pre + 1)%nat by lia.
    rewrite nth_error_app2 by lia.
    replace (List.length pre + 1 - List.length pre)%nat with 1%nat by lia.
    reflexivity.
Qed.

Lemma main_diff_path_witness :
  main_action (["--check-deps"] ++ "--diff" :: "--verbose" :: ["extra"])
  = RunDiffMode "--verbose" /\
  main_action (["--check-deps"] ++ ["--diff"]) = RunDiffMode "".
Proof.
  apply (main_diff_path ["--check-deps"] ["extra"] "--verbose").
  - simpl. intros [H|[]]. discriminate H.
  - reflexivity.
Defined.

(** ** The profile loader, again *)

(** X22.  Loading the profile throws exactly when validation is switched on
    and the result is invalid, and then it throws the error built from that
    result; what the console already showed is never lost. *)
Theorem loadModule_throws_iff :
  forall (Environment Error : Type)
         (shouldValidateDependencies : Environment -> bool)
         (validatePeerDependencies : Environment -> Recommended.ValidationResult)
         (createValidationError : Recommended.ValidationResult -> Error)
         (env : Environment) (console : list string) (e : Error),
    (fst (Recommended.loadModule Environment Error shouldValidateDependencies
            validatePeerDependencies createValidationError env console)
     = Throw e
     <-> shouldValidateDependencies env = true /\
         Recommended.isValid (validatePeerDependencies env) = false /\
         e = createValidationError (validatePeerDependencies env)) /\
    (exists logged,
        snd (Recommended.loadModule Environment Error shouldValidateDependencies
               validatePeerDependencies createValidationError env console)
        = (console ++ logged)%list).
Proof.
  intros Environment Error should validate mkError env console e.
  unfold Recommended.loadModule, Recommended.validateOnLoad.
  destruct (should env); [|split].
  - destruct (Recommended.isValid (validate env)); cbn [negb]; [|split].
    + destruct (0 <? List.length (Recommended.warnings (validate env)))%nat;
        (split; [split; [discriminate | intros (_ & H & _); discriminate]|]).
      * cbn [snd]. rewrite fold_console_warn. unfold Recommended.console_warn.
        rewrite <- !app_assoc. eexists. reflexivity.
      * exists []. now rewrite app_nil_r.
    + cbn [fst]. split.
      * intros [= <-]. now repeat split.
      * intros (_ & _ & ->). reflexivity.
    + exists []. now rewrite app_nil_r.
  - split; [discriminate | intros (H & _); discriminate].
  - exists []. now rewrite app_nil_r.
Qed.

(** With a host comparison that holds all names for equal, the order of the
    declarations shows in the result. *)
Example compareRules_declaration_order_shows :
  compareRules (fun _ _ => 0%Z) (extractRules local_project) []
  <> compareRules (fun _ _ => 0%Z) (rev (extractRules local_project)) [].
Proof. vm_compute. discriminate. Qed.
